(** * Audio utilities: PCM decoding, WAV export and voice-sample analysis

    A shallow embedding of [utils/audio.ts]:
    - [decodeAudioData]      raw 16-bit PCM bytes to an [AudioBuffer];
    - [bufferToWave]         an [AudioBuffer] to a RIFF/WAVE byte stream;
    - [calculateZCR], [analyzeAudioQuality]   the voice-cloning suitability
      heuristics.

    Two number models are used, each where it is exact.

    - The codec ([decodeAudioData], [bufferToWave]) only compares samples,
      multiplies them by 32768 or 32767, divides 16-bit integers by 32768 and
      truncates.  On the values a [Float32Array] holds (24-bit significands)
      every one of these binary64 operations is exact, so a sample is modelled
      by the rational it denotes, together with the three special values
      ([number]).
    - The analyser accumulates sums, divides and takes square roots, all of
      which round.  It is embedded over Rocq's primitive binary64 floats,
      which are the IEEE 754 doubles of the JavaScript [number] type. *)

From Stdlib Require Import ZArith List Lia QArith Qabs Lqa Bool String.
From Stdlib Require Import Floats.
Import ListNotations.

(* Decimal literals denote the nearest double, as they do in JavaScript. *)
Set Warnings "-inexact-float".

Local Open Scope Z_scope.

(** ** Outcomes of a call *)

Inductive error : Set :=
| RangeError          (* typed-array and DataView bounds *)
| NotSupportedError   (* Web Audio argument outside its nominal range *)
| IndexSizeError.     (* channel index outside the buffer *)

Inductive outcome (A : Type) : Type :=
| Returns (a : A)
| Throws (e : error)
| Diverges.

Arguments Returns {A} a.
Arguments Throws {A} e.
Arguments Diverges {A}.

Definition bind {A B} (m : outcome A) (k : A -> outcome B) : outcome B :=
  match m with
  | Returns a => k a
  | Throws e => Throws e
  | Diverges => Diverges
  end.

Notation "x <- m ;; k" := (bind m (fun x => k))
  (at level 61, m at next level, right associativity).

(** ** The Web Audio [AudioBuffer]

    Planar sample data at a sample rate.  [S] is the model of one sample. *)

Record AudioBuffer (S : Type) : Type := mkAudioBuffer {
  sampleRate : Z;
  channels : list (list S)
}.

Arguments mkAudioBuffer {S} sampleRate channels.
Arguments sampleRate {S} a.
Arguments channels {S} a.

Definition numberOfChannels {S} (b : AudioBuffer S) : nat :=
  List.length (channels b).

(** [AudioBuffer.length]: the number of sample frames, shared by all channels. *)
Definition bufferLength {S} (b : AudioBuffer S) : nat :=
  match channels b with
  | c :: _ => List.length c
  | [] => O
  end.

(** ** Exact numbers *)

Inductive number : Type :=
| Fin (q : Q)
| PosInf
| NegInf
| NaN.

Definition Qltb (x y : Q) : bool := negb (Qle_bool y x).

Definition Qsign (x : Q) : comparison := (Qnum x ?= 0)%Z.

Definition num_of_Z (z : Z) : number := Fin (inject_Z z).
Definition num_of_nat (n : nat) : number := num_of_Z (Z.of_nat n).

(** [a < b] *)
Definition num_ltb (a b : number) : bool :=
  match a, b with
  | NaN, _ | _, NaN => false
  | Fin x, Fin y => Qltb x y
  | _, NegInf => false
  | NegInf, _ => true
  | PosInf, _ => false
  | Fin _, PosInf => true
  end.

(** [a + b] *)
Definition num_add (a b : number) : number :=
  match a, b with
  | NaN, _ | _, NaN => NaN
  | Fin x, Fin y => Fin (x + y)
  | PosInf, NegInf | NegInf, PosInf => NaN
  | PosInf, _ | _, PosInf => PosInf
  | NegInf, _ | _, NegInf => NegInf
  end.

Definition inf_of_sign (c : comparison) : number :=
  match c with
  | Gt => PosInf
  | Lt => NegInf
  | Eq => NaN
  end.

Definition num_sign (a : number) : comparison :=
  match a with
  | Fin x => Qsign x
  | PosInf => Gt
  | NegInf => Lt
  | NaN => Eq
  end.

Definition sign_mul (c d : comparison) : comparison :=
  match c, d with
  | Eq, _ | _, Eq => Eq
  | Gt, Gt | Lt, Lt => Gt
  | _, _ => Lt
  end.

(** [a * b] *)
Definition num_mul (a b : number) : number :=
  match a, b with
  | NaN, _ | _, NaN => NaN
  | Fin x, Fin y => Fin (x * y)
  | _, _ => inf_of_sign (sign_mul (num_sign a) (num_sign b))
  end.

(** [a / b]; the sign of a zero divisor is not tracked. *)
Definition num_div (a b : number) : number :=
  match a, b with
  | NaN, _ | _, NaN => NaN
  | Fin x, Fin y =>
      match Qsign y with
      | Eq => inf_of_sign (Qsign x)
      | _ => Fin (x / y)
      end
  | Fin _, _ => Fin 0
  | _, Fin y =>
      match Qsign y with
      | Eq => a
      | s => inf_of_sign (sign_mul (num_sign a) s)
      end
  | _, _ => NaN
  end.

(** [Math.min] and [Math.max]: NaN wins, otherwise the smaller (larger). *)
Definition Math_min (a b : number) : number :=
  match a, b with
  | NaN, _ | _, NaN => NaN
  | _, _ => if num_ltb b a then b else a
  end.

Definition Math_max (a b : number) : number :=
  match a, b with
  | NaN, _ | _, NaN => NaN
  | _, _ => if num_ltb a b then b else a
  end.

(** Truncation toward zero. *)
Definition truncQ (q : Q) : Z := Z.quot (Qnum q) (Zpos (Qden q)).

(** Two's complement reading of the low [w] bits. *)
Definition toSigned (w : Z) (z : Z) : Z :=
  (z + 2 ^ (w - 1)) mod 2 ^ w - 2 ^ (w - 1).

(** [x | 0] *)
Definition ToInt32 (x : number) : Z :=
  match x with
  | Fin q => toSigned 32 (truncQ q)
  | _ => 0
  end.

(** Web IDL [unsigned long] conversion of an argument that stays below 2^32:
    non-finite values become 0, others are truncated. *)
Definition ToLength (x : number) : Z :=
  match x with
  | Fin q => truncQ q
  | _ => 0
  end.

(** ** Bytes

    A byte is a [Z] in [0, 256).  [le_bytes n v] is the little-endian layout
    of the low [8 n] bits of [v], which is what the [DataView] setters store
    after their modular integer conversion. *)

Fixpoint le_bytes (n : nat) (v : Z) : list Z :=
  match n with
  | O => []
  | S n' => v mod 256 :: le_bytes n' (v / 256)
  end.

(** Reading [Int16Array] elements out of a little-endian byte buffer. *)
Fixpoint int16_words (bytes : list Z) : list Z :=
  match bytes with
  | lo :: hi :: rest => toSigned 16 (lo + 256 * hi) :: int16_words rest
  | _ => []
  end.

(** [view.setXxx(at, v, true)] on a buffer: RangeError outside the buffer. *)
Definition DataView_set (view : list Z) (at_ : nat) (bs : list Z)
  : outcome (list Z) :=
  if (at_ + List.length bs <=? List.length view)%nat
  then Returns (firstn at_ view ++ bs ++ skipn (at_ + List.length bs) view)
  else Throws RangeError.

(** Typed-array element access: reading outside gives [undefined] (NaN once
    used as a number), writing outside is ignored. *)
Definition typed_get (a : list Z) (k : nat) : number :=
  match nth_error a k with
  | Some v => num_of_Z v
  | None => NaN
  end.

Definition sample_get (a : list number) (k : nat) : number :=
  nth k a NaN.

Definition typed_set {A} (a : list A) (i : nat) (v : A) : list A :=
  if (i <? List.length a)%nat then firstn i a ++ v :: skipn (S i) a else a.

(** ** decodeAudioData

    The bytes are those [decodeBase64] returns.  They come out of a JavaScript
    string, whose length every engine keeps below 2^31, so no frame count
    reaches the 2^32 wrap-around of Web IDL's [unsigned long]. *)

(** [new Int16Array(bytes.buffer)]: RangeError unless the byte length is a
    multiple of the element size. *)
Definition Int16Array_of (bytes : list Z) : outcome (list Z) :=
  if Nat.even (List.length bytes)
  then Returns (int16_words bytes)
  else Throws RangeError.

(** The limits of an audio context: the nominal ranges of [createBuffer]. *)
Record AudioContext : Set := mkAudioContext {
  maxChannels : Z;
  minSampleRate : Z;
  maxSampleRate : Z
}.

(** [ctx.createBuffer(numberOfChannels, length, sampleRate)] (Web Audio API):
    NotSupportedError when an argument is zero, negative or outside its
    nominal range; otherwise a zero-filled buffer. *)
Definition createBuffer (ctx : AudioContext)
    (numOfChannels : Z) (length : number) (rate : Z)
  : outcome (AudioBuffer number) :=
  let frames := ToLength length in
  if (1 <=? numOfChannels) && (numOfChannels <=? maxChannels ctx)
     && (1 <=? frames)
     && (minSampleRate ctx <=? rate) && (rate <=? maxSampleRate ctx)
  then Returns (mkAudioBuffer rate
                  (repeat (repeat (Fin 0) (Z.to_nat frames))
                          (Z.to_nat numOfChannels)))
  else Throws NotSupportedError.

(** [buffer.getChannelData(channel)] *)
Definition getChannelData {S} (b : AudioBuffer S) (channel : nat)
  : outcome (list S) :=
  match nth_error (channels b) channel with
  | Some d => Returns d
  | None => Throws IndexSizeError
  end.

(** Convert Int16 to Float32 (-1.0 to 1.0): [v / 32768.0]. *)
Definition int16ToFloat (v : number) : number :=
  num_div v (Fin 32768).

(** The inner loop [for (let i = 0; i < frameCount; i++)], from index [i]. *)
Fixpoint fillChannel (fuel : nat) (dataInt16 : list Z)
    (numChannels channel : nat) (frameCount : number)
    (i : nat) (channelData : list number) : outcome (list number) :=
  match fuel with
  | O => if num_ltb (num_of_nat i) frameCount then Diverges
         else Returns channelData
  | S fuel' =>
      if num_ltb (num_of_nat i) frameCount
      then fillChannel fuel' dataInt16 numChannels channel frameCount (S i)
             (typed_set channelData i
                (int16ToFloat
                   (typed_get dataInt16 (i * numChannels + channel)%nat)))
      else Returns channelData
  end.

(** The outer loop over the channels listed in [chans]. *)
Fixpoint fillChannels (chans : list nat) (dataInt16 : list Z)
    (numChannels : nat) (frameCount : number)
    (buffer : AudioBuffer number) : outcome (AudioBuffer number) :=
  match chans with
  | [] => Returns buffer
  | channel :: rest =>
      channelData <- getChannelData buffer channel ;;
      filled <- fillChannel (S (List.length dataInt16)) dataInt16
                  numChannels channel frameCount O channelData ;;
      fillChannels rest dataInt16 numChannels frameCount
        (mkAudioBuffer (sampleRate buffer)
           (typed_set (channels buffer) channel filled))
  end.

Definition decodeAudioData (bytes : list Z) (ctx : AudioContext)
    (rate : Z) (numChannels : Z) : outcome (AudioBuffer number) :=
  dataInt16 <- Int16Array_of bytes ;;
  let frameCount :=
    num_div (num_of_nat (List.length dataInt16)) (num_of_Z numChannels) in
  buffer <- createBuffer ctx numChannels frameCount rate ;;
  fillChannels (seq O (Z.to_nat numChannels)) dataInt16
    (Z.to_nat numChannels) frameCount buffer.

(** ** bufferToWave *)

(** clamp, then scale to 16-bit signed int:
    [(0.5 + sample < 0 ? sample * 32768 : sample * 32767) | 0]. *)
Definition scaleSample (x : number) : Z :=
  let sample := Math_max (Fin (-1)) (Math_min (Fin 1) x) in
  ToInt32 (if num_ltb (num_add (Fin (1 # 2)) sample) (Fin 0)
           then num_mul sample (Fin 32768)
           else num_mul sample (Fin 32767)).

(** The [DataView] with the two cursors the function keeps. *)
Record writer : Type := mkWriter {
  view : list Z;
  pos : nat;
  offset : nat
}.

Definition setUint16 (data : Z) (w : writer) : outcome writer :=
  v <- DataView_set (view w) (pos w) (le_bytes 2 data) ;;
  Returns (mkWriter v (pos w + 2) (offset w)).

Definition setUint32 (data : Z) (w : writer) : outcome writer :=
  v <- DataView_set (view w) (pos w) (le_bytes 4 data) ;;
  Returns (mkWriter v (pos w + 4) (offset w)).

Definition writeHeader (numOfChan : nat) (length : nat) (rate : Z)
    (w : writer) : outcome writer :=
  w <- setUint32 0x46464952 w ;;                       (* "RIFF" *)
  w <- setUint32 (Z.of_nat length - 8) w ;;            (* file length - 8 *)
  w <- setUint32 0x45564157 w ;;                       (* "WAVE" *)
  w <- setUint32 0x20746d66 w ;;                       (* "fmt " chunk *)
  w <- setUint32 16 w ;;                               (* length = 16 *)
  w <- setUint16 1 w ;;                                (* PCM *)
  w <- setUint16 (Z.of_nat numOfChan) w ;;
  w <- setUint32 rate w ;;
  w <- setUint32 (rate * 2 * Z.of_nat numOfChan) w ;;  (* avg. bytes/sec *)
  w <- setUint16 (Z.of_nat numOfChan * 2) w ;;         (* block-align *)
  w <- setUint16 16 w ;;                               (* 16-bit *)
  w <- setUint32 0x61746164 w ;;                       (* "data" - chunk *)
  setUint32 (Z.of_nat length - Z.of_nat (pos w) - 4) w. (* chunk length *)

(** One frame: [for (i = 0; i < numOfChan; i++)] over the channel arrays. *)
Fixpoint writeChannels (chans : list (list number)) (w : writer)
  : outcome writer :=
  match chans with
  | [] => Returns w
  | c :: rest =>
      let sample := scaleSample (sample_get c (pos w)) in
      v <- DataView_set (view w) (44 + offset w) (le_bytes 2 sample) ;;
      writeChannels rest (mkWriter v (pos w) (offset w + 2))
  end.

(** [while (pos < len) { ...; pos++ }] *)
Fixpoint writeFrames (fuel : nat) (len : nat) (chans : list (list number))
    (w : writer) : outcome writer :=
  match fuel with
  | O => if (pos w <? len)%nat then Diverges else Returns w
  | S fuel' =>
      if (pos w <? len)%nat
      then w' <- writeChannels chans w ;;
           writeFrames fuel' len chans
             (mkWriter (view w') (S (pos w')) (offset w'))
      else Returns w
  end.

(** The bytes of the Blob. *)
Definition bufferToWave (abuffer : AudioBuffer number) (len : nat)
  : outcome (list Z) :=
  let numOfChan := numberOfChannels abuffer in
  let length := (len * numOfChan * 2 + 44)%nat in
  let w := mkWriter (repeat 0 length) O O in
  w <- writeHeader numOfChan length (sampleRate abuffer) w ;;
  w <- writeFrames len len (channels abuffer) w ;;
  Returns (view w).

(** ** Binary64 helpers for the analyser *)

(** An integer as a double (exact below 2^53). *)
Definition float_of_Z (z : Z) : float :=
  if z <? 0 then PrimFloat.opp (of_uint63 (Uint63.of_Z (- z)))
  else of_uint63 (Uint63.of_Z z).

Definition float_of_nat (n : nat) : float := float_of_Z (Z.of_nat n).

(** [Math.floor] *)
Definition Math_floor (x : float) : float :=
  match Prim2SF x with
  | S754_finite s m e =>
      if 0 <=? e then x
      else
        let d := 2 ^ (- e) in
        let q := Zpos m / d in
        if s then
          (if Zpos m mod d =? 0 then float_of_Z (- q)
           else float_of_Z (- (q + 1)))
        else float_of_Z q
  | _ => x
  end.

(** [Math.round]: the nearest integer, ties toward +infinity (the sign of a
    zero result is not tracked). *)
Definition Math_round (x : float) : float :=
  let f := Math_floor x in
  if PrimFloat.ltb (PrimFloat.sub x f) 0.5%float then f
  else PrimFloat.add f 1%float.

(** [Math.max] and [Math.min] on doubles. *)
Definition fmax (a b : float) : float :=
  if is_nan a || is_nan b then nan
  else if PrimFloat.ltb a b then b else a.

Definition fmin (a b : float) : float :=
  if is_nan a || is_nan b then nan
  else if PrimFloat.ltb b a then b else a.

(** [Math.pow(x, 2)] *)
Definition Math_pow2 (x : float) : float := PrimFloat.mul x x.

(** An index argument of [slice] against a length: ToIntegerOrInfinity, then
    relative to the end when negative, clamped to the array. *)
Definition relativeIndex (len : Z) (x : float) : nat :=
  match Prim2SF x with
  | S754_nan | S754_zero _ => O
  | S754_infinity s => if s then O else Z.to_nat len
  | S754_finite s m e =>
      let t := if 0 <=? e then Zpos m * 2 ^ e else Zpos m / 2 ^ (- e) in
      if s && (0 <? t) then Z.to_nat (Z.max (len - t) 0)
      else Z.to_nat (Z.min t len)
  end.

(** [a.slice(start, end)] *)
Definition slice (a : list float) (start end_ : float) : list float :=
  let len := Z.of_nat (List.length a) in
  let k := relativeIndex len start in
  let final := relativeIndex len end_ in
  firstn (final - k) (skipn k a).

(** ** calculateZCR *)

Definition crossing (prev cur : float) : bool :=
  (PrimFloat.leb 0 cur && PrimFloat.ltb prev 0)
  || (PrimFloat.ltb cur 0 && PrimFloat.leb 0 prev).

(** The loop from index 1 on, [prev] being [buffer[i - 1]]. *)
Fixpoint zcrCount (prev : float) (rest : list float) : nat :=
  match rest with
  | [] => O
  | cur :: rest' =>
      ((if crossing prev cur then 1 else 0) + zcrCount cur rest')%nat
  end.

Definition calculateZCR (buffer : list float) : float :=
  let zcr := match buffer with
             | [] => O
             | first :: rest => zcrCount first rest
             end in
  PrimFloat.div (float_of_nat zcr) (float_of_nat (List.length buffer)).

(** ** analyzeAudioQuality *)

Record AudioAnalysisResult : Set := mkResult {
  valid : bool;
  reason : option string;
  score : float
}.

(** [buffer.duration] *)
Definition duration (buffer : AudioBuffer float) : float :=
  PrimFloat.div (float_of_nat (bufferLength buffer))
                (float_of_Z (sampleRate buffer)).

Definition windowSizeSec : float := 0.05%float. (* 50ms windows *)

(** The accumulators of the window loop. *)
Record features : Set := mkFeatures {
  globalPeak : float;
  totalRMS : float;
  windowRMSs : list float;
  windowZCRs : list float
}.

(** One sample of the RMS loop: running peak and sum of squares. *)
Definition sampleStep (acc : float * float) (sample : float) : float * float :=
  let abs := PrimFloat.abs sample in
  (if PrimFloat.ltb (fst acc) abs then abs else fst acc,
   PrimFloat.add (snd acc) (PrimFloat.mul sample sample)).

(** Window [i] of the signal. *)
Definition windowOf (data : list float) (windowSizeSamples : float) (i : nat)
  : list float :=
  slice data (PrimFloat.mul (float_of_nat i) windowSizeSamples)
             (PrimFloat.mul (float_of_nat (i + 1)) windowSizeSamples).

(** The body of the window loop. *)
Definition windowStep (data : list float) (windowSizeSamples : float)
    (st : features) (i : nat) : features :=
  let windowData := windowOf data windowSizeSamples i in
  let acc := fold_left sampleStep windowData (globalPeak st, 0%float) in
  let rms := PrimFloat.sqrt (PrimFloat.div (snd acc) windowSizeSamples) in
  mkFeatures (fst acc)
             (PrimFloat.add (totalRMS st) rms)
             (windowRMSs st ++ [rms])
             (windowZCRs st ++ [calculateZCR windowData]).

(** [for (let i = 0; i < totalWindows; i++)], from index [i]. *)
Fixpoint windowLoop (fuel : nat) (data : list float)
    (windowSizeSamples totalWindows : float) (i : nat) (st : features)
  : outcome features :=
  match fuel with
  | O => if PrimFloat.ltb (float_of_nat i) totalWindows then Diverges
         else Returns st
  | S fuel' =>
      if PrimFloat.ltb (float_of_nat i) totalWindows
      then windowLoop fuel' data windowSizeSamples totalWindows (S i)
             (windowStep data windowSizeSamples st i)
      else Returns st
  end.

(** The accumulators of the rhythm loop. *)
Record rhythm : Set := mkRhythm {
  quietWindows : nat;
  longestPauseWindows : nat;
  currentPauseRun : nat;
  activeWindowsCount : nat;
  activeZCRs : list float;
  peakCount : nat
}.

Local Open Scope float_scope.

(** The body of [for (let i = 1; i < windowRMSs.length - 1; i++)]. *)
Definition rhythmStep (rmss zcrs : list float) (avgRMS dynamicThreshold : float)
    (st : rhythm) (i : nat) : rhythm :=
  let prev := nth (i - 1) rmss nan in
  let curr := nth i rmss nan in
  let next := nth (i + 1) rmss nan in
  let st :=
    if dynamicThreshold <? curr then
      (* It's active speech *)
      mkRhythm (quietWindows st) (longestPauseWindows st) (currentPauseRun st)
        (S (activeWindowsCount st))
        (activeZCRs st ++ [nth i zcrs nan])
        (if (prev <? curr) && (next <? curr) && (avgRMS * 0.8 <? curr)
         then S (peakCount st) else peakCount st)
    else st in
  (* Pause analysis *)
  if curr <? dynamicThreshold then
    mkRhythm (S (quietWindows st)) (longestPauseWindows st)
      (S (currentPauseRun st))
      (activeWindowsCount st) (activeZCRs st) (peakCount st)
  else if (0 <? currentPauseRun st)%nat then
    mkRhythm (quietWindows st)
      (Nat.max (longestPauseWindows st) (currentPauseRun st)) O
      (activeWindowsCount st) (activeZCRs st) (peakCount st)
  else st.

Definition rhythmLoop (rmss zcrs : list float) (avgRMS dynamicThreshold : float)
  : rhythm :=
  let st := fold_left (rhythmStep rmss zcrs avgRMS dynamicThreshold)
              (seq 1 (List.length rmss - 2))
              (mkRhythm O O O O [] O) in
  mkRhythm (quietWindows st)
    (Nat.max (longestPauseWindows st) (currentPauseRun st))
    (currentPauseRun st) (activeWindowsCount st) (activeZCRs st) (peakCount st).

(** The quantities the gates and the score read. *)
Record stats : Set := mkStats {
  avgRMS : float;
  peak : float;
  dynamicThreshold : float;
  quietRatio : float;
  activeDurationSec : float;
  peaksPerSecond : float;
  zcrStdDev : float;
  variationCoefficient : float
}.

Definition statsOf (f : features) (totalWindows : float) : stats :=
  let avgRMS := totalRMS f / totalWindows in
  let dynamicThreshold := fmax (avgRMS * 0.4) 0.02 in
  let r := rhythmLoop (windowRMSs f) (windowZCRs f) avgRMS dynamicThreshold in
  let quietRatio := float_of_nat (quietWindows r) / totalWindows in
  (* Rate Calculation *)
  let activeDurationSec := float_of_nat (activeWindowsCount r) * windowSizeSec in
  let peaksPerSecond :=
    if 0 <? activeDurationSec
    then float_of_nat (peakCount r) / activeDurationSec else 0 in
  (* ZCR Variance (Expressiveness proxy) *)
  let zcrCount := List.length (activeZCRs r) in
  let zcrSum := fold_left PrimFloat.add (activeZCRs r) 0 in
  let avgZCR := if (0 <? zcrCount)%nat
                then zcrSum / float_of_nat zcrCount else 0 in
  let zcrVarianceSum :=
    fold_left (fun acc z => acc + Math_pow2 (z - avgZCR)) (activeZCRs r) 0 in
  let zcrStdDev := if (0 <? zcrCount)%nat
                   then sqrt (zcrVarianceSum / float_of_nat zcrCount) else 0 in
  (* RMS Variance (Dynamics proxy) *)
  let sumSquaredDiff :=
    fold_left (fun acc rms => acc + Math_pow2 (rms - avgRMS)) (windowRMSs f) 0 in
  let stdDevRMS := sqrt (sumSquaredDiff / totalWindows) in
  mkStats avgRMS (globalPeak f) dynamicThreshold quietRatio activeDurationSec
    peaksPerSecond zcrStdDev (stdDevRMS / avgRMS).

(** SCORING LOGIC *)
Definition scoreOf (s : stats) : float :=
  let score := 100 in
  (* Penalize Low Volume *)
  let score := if avgRMS s <? 0.05 then score - 15
               else if avgRMS s <? 0.1 then score - 5 else score in
  (* Penalize Clipping Risk *)
  let score := if 0.95 <? peak s then score - 10 else score in
  (* Penalize Noise (Low Silence Ratio) *)
  let score := if quietRatio s <? 0.15 then score - 20 else score in
  (* Penalize Monotony (Low Dynamics) *)
  let score := if variationCoefficient s <? 0.25 then score - 15 else score in
  (* Penalize Flat Pitch (Low ZCR Variance) *)
  let score := if zcrStdDev s <? 0.005 then score - 10 else score in
  (* Penalize Extreme Rates *)
  let score := if (peaksPerSecond s <? 1.5) || (8.0 <? peaksPerSecond s)
               then score - 10 else score in
  (* Clamp Score *)
  fmax 0 (fmin 100 (Math_round score)).

Definition invalid (why : string) (sc : float) : AudioAnalysisResult :=
  mkResult false (Some why) sc.

(** Everything after the window loop: gates 2 and 3, score, heuristics. *)
Definition classify (f : features) (totalWindows : float)
  : AudioAnalysisResult :=
  let s := statsOf f totalWindows in
  (* 2. Volume Check *)
  if avgRMS s <? 0.01 then
    invalid "Audio is too quiet. We can't hear the voice clearly. Please record closer to the microphone." 20
  (* 3. Clipping Check *)
  else if (0.99 <? peak s) && (0.5 <? avgRMS s) then
    invalid "Audio is distorted (too loud). This causes artifacts. Please lower your volume or move back from the mic." 30
  else
    let score := scoreOf s in
    (* A. Wall of Sound / Noise *)
    if (quietRatio s <? 0.02) && (variationCoefficient s <? 0.5) then
      invalid "Background music or noise detected. The AI needs a clean, 'dry' voice recording without background tracks." (fmin score 40)
    (* B. Monotony / Compression (Dynamics) *)
    else if variationCoefficient s <? 0.15 then
      invalid "Voice sounds robotic or over-processed. Please use a natural recording with normal speaking intonation." (fmin score 45)
    (* C. Rhythm / Pause *)
    else if 0.95 <? quietRatio s then
      invalid "Too much silence detected. The file is mostly empty. Please trim the silent parts so we can hear your voice." (fmin score 30)
    (* D. Speech Rate Analysis *)
    else if (peaksPerSecond s <? 0.5) && (2 <? activeDurationSec s) then
      invalid "Speech is too slow. Please speak at a natural, conversational pace for best cloning results." (fmin score 50)
    else if 15.0 <? peaksPerSecond s then
      invalid "Speech is too fast/rushed. Please speak clearly at a moderate pace so the AI can capture articulation." (fmin score 50)
    (* E. Pitch/Expressiveness Analysis (ZCR Variance) *)
    else if (zcrStdDev s <? 0.001) && (3 <? activeDurationSec s) then
      invalid "Voice lacks pitch variation (monotone). Try speaking with more emotion and tonal range." (fmin score 55)
    else mkResult true None score.

(** The window loop with its parameters: the features and [totalWindows].
    A window size of at least 1 bounds [totalWindows] by the signal length;
    with a window size of 0 the bound is infinite and the loop never ends. *)
Definition extract (data : list float) (rate : float)
  : outcome (features * float) :=
  let windowSizeSamples := Math_floor (rate * windowSizeSec) in
  let totalWindows :=
    Math_floor (float_of_nat (List.length data) / windowSizeSamples) in
  f <- windowLoop (S (List.length data)) data windowSizeSamples totalWindows
         O (mkFeatures 0 0 [] []) ;;
  Returns (f, totalWindows).

Definition tooShort : AudioAnalysisResult :=
  invalid "Recording is too short (< 3s). Please upload at least 3-5 seconds of continuous speech." 0.

Definition tooLarge : AudioAnalysisResult :=
  invalid "File is too large (> 5m). Please trim your clip to a shorter sample for faster processing." 0.

Definition analyzeAudioQuality (buffer : AudioBuffer float)
  : outcome AudioAnalysisResult :=
  data <- getChannelData buffer 0 ;;   (* Analyze first channel *)
  (* 1. Duration Check *)
  if duration buffer <? 3.0 then Returns tooShort
  else if 300 <? duration buffer then Returns tooLarge
  else
    ft <- extract data (float_of_Z (sampleRate buffer)) ;;
    Returns (classify (fst ft) (snd ft)).

Local Close Scope float_scope.

(** ** Sample inputs *)

(** [n] repetitions of a block of samples. *)
Definition cycles {A} (n : nat) (block : list A) : list A :=
  List.concat (repeat block n).

(** 50 ms (400 samples at 8 kHz) of a square wave of amplitude [a]:
    [fast] flips sign every sample, [slow] every second sample. *)
Definition fast (a : float) : list float :=
  cycles 200 [a; PrimFloat.opp a].

Definition slow (a : float) : list float :=
  cycles 100 [a; a; PrimFloat.opp a; PrimFloat.opp a].

Definition silence : list float := repeat 0%float 400.

(** Three seconds of speech-like bursts: soft, loud, soft, pause. *)
Definition burstSignal : list float :=
  cycles 15 (fast 0.25 ++ slow 0.5 ++ fast 0.25 ++ silence)%float.

Definition burstBuffer : AudioBuffer float :=
  mkAudioBuffer 8000 [burstSignal].

(** The same signal followed by a full-scale click of two samples. *)
Definition clickSignal : list float := burstSignal ++ [1%float; (-1)%float].

Definition clickBuffer : AudioBuffer float :=
  mkAudioBuffer 8000 [clickSignal].

(** Two seconds of a full-scale square wave. *)
Definition shortBuffer : AudioBuffer float :=
  mkAudioBuffer 8000 [cycles 40 (fast 1)].

(** ** The WAV layout, as the format defines it *)

(** The canonical 44-byte RIFF/WAVE header for [numOfChan] channels of
    16-bit PCM at [rate] Hz in a file of [total] bytes. *)
Definition canonicalHeader (numOfChan total : nat) (rate : Z) : list Z :=
  [82; 73; 70; 70]                                   (* 0  ChunkID "RIFF" *)
  ++ le_bytes 4 (Z.of_nat total - 8)                 (* 4  ChunkSize *)
  ++ [87; 65; 86; 69]                                (* 8  Format "WAVE" *)
  ++ [102; 109; 116; 32]                             (* 12 Subchunk1ID "fmt " *)
  ++ le_bytes 4 16                                   (* 16 Subchunk1Size *)
  ++ le_bytes 2 1                                    (* 20 AudioFormat *)
  ++ le_bytes 2 (Z.of_nat numOfChan)                 (* 22 NumChannels *)
  ++ le_bytes 4 rate                                 (* 24 SampleRate *)
  ++ le_bytes 4 (rate * 2 * Z.of_nat numOfChan)      (* 28 ByteRate *)
  ++ le_bytes 2 (Z.of_nat numOfChan * 2)             (* 32 BlockAlign *)
  ++ le_bytes 2 16                                   (* 34 BitsPerSample *)
  ++ [100; 97; 116; 97]                              (* 36 Subchunk2ID "data" *)
  ++ le_bytes 4 (Z.of_nat total - 44).               (* 40 Subchunk2Size *)

(** The unsigned value of a little-endian field. *)
Fixpoint le_value (bs : list Z) : Z :=
  match bs with
  | [] => 0
  | b :: rest => b + 256 * le_value rest
  end.

(** The bytes one frame contributes: a word per channel. *)
Definition frameBytes (chans : list (list number)) (p : nat) : list Z :=
  flat_map (fun c => le_bytes 2 (scaleSample (sample_get c p))) chans.

(** ** Quantisation, in the words of the format description *)

(** A sample clamped to [-1, 1]. *)
Definition Qclamp (q : Q) : Q :=
  let m := if Qltb q 1 then q else 1%Q in
  if Qltb (-1) m then m else (-1)%Q.

(** Scaling by sign: negative samples by 32768, the others by 32767,
    truncated toward zero. *)
Definition signScaledWord (q : Q) : Z :=
  let c := Qclamp q in
  truncQ (c * (if Qltb c 0 then 32768 else 32767)).

(** Scaling by the threshold -1/2. *)
Definition thresholdScale (c : Q) : Q :=
  if Qltb c (-1 # 2) then 32768%Q else 32767%Q.

(** Word [k] of the "data" sub-chunk of a WAV file, back as a float. *)
Definition decodedWord (out : list Z) (k : nat) : number :=
  int16ToFloat (typed_get (int16_words (skipn 44 out)) k).

(** Encoding [len] frames and decoding the data words gives every sample
    back within [eps]. *)
Definition roundTripWithin (eps : Q) (b : AudioBuffer number) (len : nat)
  : Prop :=
  exists out,
    bufferToWave b len = Returns out /\
    forall p ch c x,
      (p < len)%nat ->
      nth_error (channels b) ch = Some c ->
      nth_error c p = Some (Fin x) ->
      exists d,
        decodedWord out (p * numberOfChannels b + ch) = Fin d /\
        (Qabs (d - x) <= eps)%Q.

(** 45 frames of one constant sample, mono, 24 kHz. *)
Definition constantBuffer (q : Q) : AudioBuffer number :=
  mkAudioBuffer 24000 [repeat (Fin q) 45].

(** An audio context with the limits of a current browser. *)
Definition browserContext : AudioContext := mkAudioContext 32 3000 768000.

(** A buffer of [nc] channels of [frames] samples each. *)
Definition shaped (nc frames : nat) (b : AudioBuffer number) : Prop :=
  List.length (channels b) = nc /\
  Forall (fun c => List.length c = frames) (channels b).

(** The inputs [decodeAudioData] accepts: whole 16-bit words, a channel
    count and a sample rate the context supports, at least one whole frame. *)
Definition decodable (bytes : list Z) (ctx : AudioContext) (rate nc : Z)
  : Prop :=
  Nat.even (List.length bytes) = true /\
  1 <= nc <= maxChannels ctx /\
  nc <= Z.of_nat (List.length bytes / 2) /\
  minSampleRate ctx <= rate <= maxSampleRate ctx.

(** [decodeAudioData] returns a buffer of floor(bytes / 2 / channels)
    frames. *)
Definition returnsWholeFrames (bytes : list Z) (ctx : AudioContext)
    (rate nc : Z) : Prop :=
  exists b,
    decodeAudioData bytes ctx rate nc = Returns b /\
    Z.of_nat (bufferLength b) = Z.of_nat (List.length bytes) / 2 / nc.

(** Five 16-bit words: two stereo frames and one left-over sample. *)
Definition fiveWords : list Z := [0; 128; 255; 127; 1; 0; 255; 255; 7; 7].

(** ** Well-formed analysis results *)

(** A double that is an integer between [lo] and 100. *)
Definition integerScore (lo : Z) (x : float) : Prop :=
  exists z, lo <= z <= 100 /\ x = float_of_Z z.

(** The reason is present exactly when the verdict is negative. *)
Definition reasonIffInvalid (r : AudioAnalysisResult) : Prop :=
  (exists why, reason r = Some why) <-> valid r = false.

(** The scores the deductions can leave: 100 down to 20 in steps of 5. *)
Definition scoreValues : list Z :=
  [100; 95; 90; 85; 80; 75; 70; 65; 60; 55; 50; 45; 40; 35; 30; 25; 20].

(** ** Peak and quiet windows, stated on lists *)

(** The running maximum of the absolute sample values of [l], from [p]. *)
Definition peakOf (l : list float) (p : float) : float :=
  fold_left (fun p x => if PrimFloat.ltb p (PrimFloat.abs x)
                        then PrimFloat.abs x else p) l p.

(** The peak over a whole signal. *)
Definition wholeSignalPeak (data : list float) : float := peakOf data 0%float.

(** The windows of the feature series: the first [n] windows of [data]. *)
Definition windowsOf (data : list float) (windowSizeSamples : float) (n : nat)
  : list (list float) :=
  map (windowOf data windowSizeSamples) (seq O n).

(** How many of the RMS values lie below the threshold. *)
Definition quietCount (threshold : float) (rmss : list float) : nat :=
  List.length (filter (fun rms => PrimFloat.ltb rms threshold) rmss).

(** A series without its first and last entry. *)
Definition interior {A} (l : list A) : list A := removelast (tl l).

(** The features the window loop extracts from the two signals. *)
Definition clickFeatures : features :=
  Eval vm_compute in
    match extract clickSignal 8000%float with
    | Returns (f, _) => f
    | _ => mkFeatures 0%float 0%float [] []
    end.

Definition burstFeatures : features :=
  Eval vm_compute in
    match extract burstSignal 8000%float with
    | Returns (f, _) => f
    | _ => mkFeatures 0%float 0%float [] []
    end.

(** The float the decoder stores for frame [j] of channel [channel]. *)
Definition decodedSample (dataInt16 : list Z) (numChannels channel j : nat)
  : number :=
  int16ToFloat (typed_get dataInt16 (j * numChannels + channel)%nat).

(** ** Words of the data chunk *)

(** The 16-bit words one frame contributes: one per channel. *)
Definition frameWords (chans : list (list number)) (p : nat) : list Z :=
  map (fun c => scaleSample (sample_get c p)) chans.

(** What a 16-bit word becomes when it is decoded and encoded again: words
    below -16384 and 0 are kept, every other word moves one step toward 0. *)
Definition reencodedWord (w : Z) : Z :=
  if w <? -16384 then w
  else if w <? 0 then w + 1
  else if w =? 0 then 0
  else w - 1.

From Stdlib Require Import Ascii.

(** ** The analyser, stated on lists *)

(** The sign changes [calculateZCR] counts in a buffer. *)
Definition crossings (buffer : list float) : nat :=
  match buffer with
  | [] => O
  | first :: rest => zcrCount first rest
  end.

(** The RMS of one window: sqrt(sum of squares / windowSizeSamples). *)
Definition rmsOf (windowSizeSamples : float) (w : list float) : float :=
  PrimFloat.sqrt
    (PrimFloat.div
       (fold_left (fun sum x => PrimFloat.add sum (PrimFloat.mul x x))
                  w 0%float)
       windowSizeSamples).

(** The scores a result can carry: 0, or 20 to 100 in steps of 5. *)
Definition returnedScores : list Z := 0 :: scoreValues.

(** ** validateAndAnalyzeAudio (App.tsx), from the analysis result on *)

(** How an async call ends: it resolves, or rejects with an [Error] of the
    given message. *)
Inductive completion (A : Type) : Type :=
| Resolved (a : A)
| Rejected (message : string).

Arguments Resolved {A} a.
Arguments Rejected {A} message.

(** [analysis.reason || fallback]: the fallback replaces a missing or empty
    reason. *)
Definition orElse (s : option string) (fallback : string) : string :=
  match s with
  | Some m => if String.eqb m "" then fallback else m
  | None => fallback
  end.

(** The [try] block after the analysis, then the [catch] block: an error
    with a message is thrown again, one without becomes the generic one. *)
Definition validateAnalysis (analysis : AudioAnalysisResult)
  : completion float :=
  let attempt :=
    if negb (valid analysis)
    then Rejected (orElse (reason analysis) "Audio validation failed.")
    else Resolved (score analysis) in
  match attempt with
  | Rejected message =>
      if String.eqb message ""
      then Rejected "Failed to analyze audio file. The file may be corrupted or in an unsupported format."
      else Rejected message
  | Resolved sc => Resolved sc
  end.

(** ** fileToBase64, from the reader's result on *)

(** [s.split(sep)] for a one-character separator. *)
Fixpoint split (sep : ascii) (s : string) : list string :=
  match s with
  | EmptyString => [EmptyString]
  | String c rest =>
      match split sep rest with
      | seg :: segs =>
          if Ascii.eqb c sep then EmptyString :: seg :: segs
          else String c seg :: segs
      | [] => [String c EmptyString]
      end
  end.

(** [result.split(',')[1]]: what the promise resolves with ([None] is
    [undefined]). *)
Definition fileToBase64 (result : string) : option string :=
  nth_error (split "," result) 1.

(** A string without a comma. *)
Fixpoint commaFree (s : string) : Prop :=
  match s with
  | EmptyString => True
  | String c rest => c <> ","%char /\ commaFree rest
  end.

(** ** The download name (HistoryItem.tsx)

    A string is its sequence of UTF-16 code units. *)

Definition isDigit (c : nat) : bool := (48 <=? c)%nat && (c <=? 57)%nat.
Definition isUpper (c : nat) : bool := (65 <=? c)%nat && (c <=? 90)%nat.
Definition isLower (c : nat) : bool := (97 <=? c)%nat && (c <=? 122)%nat.

(** [/[^a-z0-9]/gi] does not match: a letter of either case or a digit. *)
Definition isAlnum (c : nat) : bool := isDigit c || isUpper c || isLower c.

(** [toLowerCase] on the code units that are left after the replacement. *)
Definition toLowerCase (c : nat) : nat := if isUpper c then (c + 32)%nat else c.

(** [item.text.slice(0, 20).replace(/[^a-z0-9]/gi, '_').toLowerCase()] *)
Definition safeText (text : list nat) : list nat :=
  map toLowerCase
      (map (fun c => if isAlnum c then c else 95%nat) (firstn 20 text)).

(** A code unit of [a-z0-9_]. *)
Definition isSafe (c : nat) : bool := isDigit c || isLower c || (c =? 95)%nat.

(** What the rhythm loop keeps true after [k] windows. *)
Definition rhythmInvariant (k : nat) (st : rhythm) : Prop :=
  (peakCount st <= activeWindowsCount st)%nat /\
  (activeWindowsCount st + quietWindows st <= k)%nat /\
  List.length (activeZCRs st) = activeWindowsCount st /\
  (longestPauseWindows st <= quietWindows st)%nat /\
  (currentPauseRun st <= quietWindows st)%nat.

(** The features of three seconds of digital silence at 8 kHz. *)
Definition silentFeatures : features :=
  Eval vm_compute in
    match extract (cycles 60 silence) 8000%float with
    | Returns (f, _) => f
    | _ => mkFeatures 0%float 0%float [] []
    end.

(** ** Rounded quotients

    What rounding to nearest makes of a mantissa [mr] of 53 bits, or of
    2^53 after a carry, at exponent [e]. *)
Definition rounded (mr : Z) (e : Z) : spec_float :=
  if mr <? 2 ^ 53 then S754_finite false (Z.to_pos mr) e
  else S754_finite false (2 ^ 52)%positive (e + 1).

(* ================================================================== *)
(** * Properties *)

(** ** Lists and bytes *)

Lemma skipn_repeat {A} (x : A) (n k : nat) :
  skipn n (repeat x k) = repeat x (k - n).
Proof.
  revert k; induction n as [|n IH]; intros [|k]; simpl; auto.
Qed.

Lemma le_bytes_length n v : List.length (le_bytes n v) = n.
Proof. revert v; induction n; simpl; intros; auto. Qed.

(** Writing right behind what has been written so far appends. *)
Lemma DataView_set_append done k bs :
  (List.length bs <= k)%nat ->
  DataView_set (done ++ repeat 0 k) (List.length done) bs
  = Returns ((done ++ bs) ++ repeat 0 (k - List.length bs)).
Proof.
  intros Hk. unfold DataView_set.
  rewrite length_app, repeat_length.
  destruct (Nat.leb_spec (List.length done + List.length bs)
                         (List.length done + k)) as [_|]; [|lia].
  rewrite firstn_app, Nat.sub_diag, firstn_all, firstn_O, app_nil_r.
  rewrite skipn_app, skipn_all2 by lia.
  replace (List.length done + List.length bs - List.length done)%nat
    with (List.length bs) by lia.
  rewrite skipn_repeat, <- app_assoc. reflexivity.
Qed.

Lemma frameBytes_length chans p :
  List.length (frameBytes chans p) = (2 * List.length chans)%nat.
Proof.
  unfold frameBytes. induction chans as [|c cs IH]; cbn [flat_map]; auto.
  rewrite length_app, IH, le_bytes_length. simpl. lia.
Qed.

(** ** The header *)

Lemma writeHeader_spec numOfChan total rate tail :
  writeHeader numOfChan total rate (mkWriter (repeat 0 44 ++ tail) O O)
  = Returns (mkWriter (canonicalHeader numOfChan total rate ++ tail) 44 O).
Proof.
  unfold writeHeader, setUint32, setUint16, DataView_set, canonicalHeader.
  cbn [repeat app le_bytes bind view pos offset List.length firstn skipn
       Nat.add Nat.leb Z.of_nat Pos.of_succ_nat Pos.succ].
  replace (Z.of_nat total - 40 - 4) with (Z.of_nat total - 44) by lia.
  reflexivity.
Qed.

(** ** The sample loop *)

Lemma writeChannels_spec chans :
  forall done k p off,
    List.length done = (44 + off)%nat ->
    (2 * List.length chans <= k)%nat ->
    writeChannels chans (mkWriter (done ++ repeat 0 k) p off)
    = Returns (mkWriter ((done ++ frameBytes chans p)
                           ++ repeat 0 (k - 2 * List.length chans))
                        p (off + 2 * List.length chans)).
Proof.
  induction chans as [|c cs IH]; intros done k p off Hdone Hk.
  - cbn. rewrite app_nil_r, Nat.sub_0_r, Nat.add_0_r. reflexivity.
  - cbn [writeChannels view pos offset]. rewrite <- Hdone.
    rewrite DataView_set_append by (rewrite le_bytes_length; cbn in Hk; lia).
    cbn [bind]. rewrite le_bytes_length.
    rewrite IH.
    + unfold frameBytes. cbn [flat_map List.length].
      rewrite <- !app_assoc.
      replace (k - 2 - 2 * List.length cs)%nat
        with (k - 2 * S (List.length cs))%nat by lia.
      replace (off + 2 + 2 * List.length cs)%nat
        with (off + 2 * S (List.length cs))%nat by lia.
      reflexivity.
    + rewrite length_app, le_bytes_length. lia.
    + cbn [List.length] in Hk. lia.
Qed.

Lemma writeFrames_spec fuel len chans :
  forall done k p off,
    List.length done = (44 + off)%nat ->
    (len - p <= fuel)%nat ->
    (2 * List.length chans * (len - p) <= k)%nat ->
    writeFrames fuel len chans (mkWriter (done ++ repeat 0 k) p off)
    = Returns (mkWriter
                 ((done ++ flat_map (frameBytes chans) (seq p (len - p)))
                    ++ repeat 0 (k - 2 * List.length chans * (len - p)))
                 (Nat.max p len)
                 (off + 2 * List.length chans * (len - p))).
Proof.
  induction fuel as [|fuel IH]; intros done k p off Hdone Hfuel Hk;
    cbn [writeFrames pos];
    destruct (Nat.ltb_spec p len) as [Hlt|Hge]; try lia.
  - replace (len - p)%nat with O by lia.
    cbn [seq flat_map]. rewrite app_nil_r, Nat.mul_0_r, Nat.sub_0_r, Nat.add_0_r.
    rewrite Nat.max_l by lia. reflexivity.
  - assert (Hstep : (len - p = S (len - S p))%nat) by lia.
    assert (Hroom : (2 * List.length chans <= k)%nat) by nia.
    rewrite writeChannels_spec by assumption.
    cbn [bind view pos offset]. rewrite IH.
    + rewrite Hstep at 1. cbn [seq flat_map].
      rewrite <- !app_assoc.
      replace (k - 2 * List.length chans
               - 2 * List.length chans * (len - S p))%nat
        with (k - 2 * List.length chans * (len - p))%nat by nia.
      replace (off + 2 * List.length chans
               + 2 * List.length chans * (len - S p))%nat
        with (off + 2 * List.length chans * (len - p))%nat by nia.
      replace (Nat.max (S p) len) with (Nat.max p len) by lia.
      reflexivity.
    + rewrite length_app, frameBytes_length. lia.
    + lia.
    + nia.
  - replace (len - p)%nat with O by lia.
    cbn [seq flat_map]. rewrite app_nil_r, Nat.mul_0_r, Nat.sub_0_r, Nat.add_0_r.
    rewrite Nat.max_l by lia. reflexivity.
Qed.

(** The whole output: header, the frames from index 44 on, zero fill. *)
Lemma bufferToWave_bytes (abuffer : AudioBuffer number) (len : nat) :
  let numOfChan := numberOfChannels abuffer in
  let total := (len * numOfChan * 2 + 44)%nat in
  bufferToWave abuffer len
  = Returns (canonicalHeader numOfChan total (sampleRate abuffer)
             ++ flat_map (frameBytes (channels abuffer)) (seq 44 (len - 44))
             ++ repeat 0 (2 * numOfChan * Nat.min 44 len)).
Proof.
  intros numOfChan total. unfold bufferToWave.
  fold numOfChan. fold total.
  replace (repeat 0 total)
    with (repeat 0 44 ++ repeat 0 (len * numOfChan * 2))
    by (unfold total; rewrite <- repeat_app; f_equal; lia).
  rewrite writeHeader_spec. cbn [bind].
  rewrite writeFrames_spec.
  - cbn [bind view]. rewrite <- app_assoc. do 2 f_equal.
    unfold numOfChan, numberOfChannels. do 2 f_equal.
    destruct (Nat.le_gt_cases len 44) as [Hle|Hgt].
    + rewrite Nat.min_r by lia. replace (len - 44)%nat with O by lia. nia.
    + rewrite Nat.min_l by lia.
      assert (len = (len - 44) + 44)%nat as Hlen by lia.
      rewrite Hlen at 1. nia.
  - reflexivity.
  - lia.
  - unfold numOfChan, numberOfChannels. nia.
Qed.

Lemma le_value_le_bytes n v : le_value (le_bytes n v) = v mod 256 ^ Z.of_nat n.
Proof.
  revert v; induction n as [|n IH]; intros v.
  - cbn. now rewrite Z.mod_1_r.
  - cbn [le_bytes le_value]. rewrite IH, Nat2Z.inj_succ, Z.pow_succ_r by lia.
    rewrite Z.rem_mul_r by lia. reflexivity.
Qed.

(** A 16-bit word written by [setInt16] reads back through an [Int16Array]. *)
Lemma int16_words_le_bytes v :
  -32768 <= v <= 32767 -> int16_words (le_bytes 2 v) = [v].
Proof.
  intros Hv. cbn [le_bytes int16_words]. f_equal.
  rewrite <- (Z.rem_mul_r v 256 256) by lia.
  unfold toSigned. change (2 ^ (16 - 1)) with 32768.
  change (2 ^ 16) with 65536. change (256 * 256) with 65536.
  rewrite Zplus_mod_idemp_l.
  rewrite (Z.mod_small (v + 32768)) by lia. lia.
Qed.

(** ** Rational arithmetic of the quantiser *)

Lemma Qltb_spec (x y : Q) : Qltb x y = true <-> (x < y)%Q.
Proof.
  unfold Qltb. rewrite negb_true_iff.
  destruct (Qle_bool y x) eqn:E.
  - apply Qle_bool_iff in E. split; [discriminate|].
    intros H. exfalso. apply (Qlt_not_le _ _ H E).
  - split; [intros _|reflexivity].
    apply Qnot_le_lt. intros H. apply Qle_bool_iff in H. congruence.
Qed.

Lemma Qltb_false (x y : Q) : Qltb x y = false <-> (y <= x)%Q.
Proof.
  destruct (Qltb x y) eqn:E.
  - apply Qltb_spec in E. split; [discriminate|].
    intros H. exfalso. apply (Qlt_not_le _ _ E H).
  - split; [intros _|reflexivity].
    apply Qnot_lt_le. intros H. apply Qltb_spec in H. congruence.
Qed.

(** Truncation keeps the integer part: below for positives, above for
    negatives. *)
Lemma truncQ_nonneg (q : Q) :
  (0 <= q)%Q ->
  (inject_Z (truncQ q) <= q)%Q /\ (q < inject_Z (truncQ q) + 1)%Q.
Proof.
  destruct q as [n d]. unfold truncQ, Qle, Qlt, Qplus, inject_Z. cbn.
  intros Hn. rewrite Z.mul_1_r in Hn.
  pose proof (Z.quot_rem' n (Zpos d)) as Hqr.
  pose proof (Z.rem_bound_pos n (Zpos d) Hn (Pos2Z.is_pos d)) as Hr.
  split; nia.
Qed.

Lemma truncQ_nonpos (q : Q) :
  (q <= 0)%Q ->
  (q <= inject_Z (truncQ q))%Q /\ (inject_Z (truncQ q) - 1 < q)%Q.
Proof.
  destruct q as [n d].
  unfold truncQ, Qle, Qlt, Qminus, Qplus, Qopp, inject_Z. cbn.
  intros Hn. rewrite Z.mul_1_r in Hn.
  pose proof (Z.quot_rem' n (Zpos d)) as Hqr.
  assert (Hd : Zpos d <> 0) by lia.
  pose proof (Z.rem_nonpos n (Zpos d) Hd Hn) as Hr.
  pose proof (Z.rem_bound_abs n (Zpos d) Hd) as Ha.
  split; nia.
Qed.

Lemma inject_Z_le_inv (a b : Z) : (inject_Z a <= inject_Z b)%Q -> a <= b.
Proof. now rewrite <- Zle_Qle. Qed.

Lemma inject_Z_lt_inv (a b : Z) : (inject_Z a < inject_Z b)%Q -> a < b.
Proof. now rewrite <- Zlt_Qlt. Qed.

(** An integer bound on a rational bounds its truncation. *)
Lemma truncQ_bounds (q : Q) (N : Z) :
  (- inject_Z N <= q)%Q -> (q <= inject_Z N)%Q -> - N <= truncQ q <= N.
Proof.
  intros Hlo Hhi.
  destruct (Qlt_le_dec q 0) as [Hneg|Hpos].
  - destruct (truncQ_nonpos q) as [H1 H2]; [lra|].
    assert (H3 : (inject_Z (- N) <= inject_Z (truncQ q))%Q)
      by (rewrite inject_Z_opp; lra).
    assert (H4 : (inject_Z (truncQ q) < inject_Z 1)%Q)
      by (change (inject_Z 1) with 1%Q; lra).
    apply inject_Z_le_inv in H3. apply inject_Z_lt_inv in H4.
    assert (H5 : (inject_Z 0 <= inject_Z N)%Q)
      by (change (inject_Z 0) with 0%Q; lra).
    apply inject_Z_le_inv in H5. lia.
  - destruct (truncQ_nonneg q Hpos) as [H1 H2].
    assert (H3 : (inject_Z (truncQ q) <= inject_Z N)%Q) by lra.
    assert (H4 : (inject_Z (-1) < inject_Z (truncQ q))%Q)
      by (change (inject_Z (-1)) with (-1)%Q; lra).
    apply inject_Z_le_inv in H3. apply inject_Z_lt_inv in H4.
    assert (H5 : (inject_Z 0 <= inject_Z N)%Q)
      by (change (inject_Z 0) with 0%Q; lra).
    apply inject_Z_le_inv in H5. lia.
Qed.

Lemma Qclamp_range (q : Q) : (-1 <= Qclamp q <= 1)%Q.
Proof.
  unfold Qclamp.
  destruct (Qltb q 1) eqn:E1.
  - apply Qltb_spec in E1.
    destruct (Qltb (-1) q) eqn:E2; [apply Qltb_spec in E2|]; lra.
  - destruct (Qltb (-1) 1) eqn:E2; lra.
Qed.

Lemma Qclamp_id (q : Q) : (-1 <= q <= 1)%Q -> (Qclamp q == q)%Q.
Proof.
  intros [Hlo Hhi]. unfold Qclamp.
  destruct (Qltb q 1) eqn:E1.
  - destruct (Qltb (-1) q) eqn:E2; [reflexivity|].
    apply Qltb_false in E2. lra.
  - apply Qltb_false in E1. cbn. lra.
Qed.

(** [Math.max(-1, Math.min(1, x))] on a finite sample. *)
Lemma clamp_Fin (q : Q) :
  Math_max (Fin (-1)) (Math_min (Fin 1) (Fin q)) = Fin (Qclamp q).
Proof.
  unfold Math_min, Math_max, Qclamp. cbn [num_ltb].
  destruct (Qltb q 1); cbn [num_ltb].
  - destruct (Qltb (-1) q); reflexivity.
  - reflexivity.
Qed.

(** The test [0.5 + sample < 0] is a threshold at -1/2. *)
Lemma threshold_test (c : Q) :
  num_ltb (num_add (Fin (1 # 2)) (Fin c)) (Fin 0) = Qltb c (-1 # 2).
Proof.
  cbn [num_add num_ltb].
  destruct (Qltb c (-1 # 2)) eqn:E.
  - apply Qltb_spec in E. apply Qltb_spec. lra.
  - apply Qltb_false in E. apply Qltb_false. lra.
Qed.

Lemma scaleSample_Fin (q : Q) :
  scaleSample (Fin q)
  = toSigned 32 (truncQ (Qclamp q * thresholdScale (Qclamp q))).
Proof.
  unfold scaleSample. rewrite clamp_Fin, threshold_test.
  unfold thresholdScale. destruct (Qltb (Qclamp q) (-1 # 2)); reflexivity.
Qed.

Lemma toSigned32_small (z : Z) : -32768 <= z <= 32768 -> toSigned 32 z = z.
Proof.
  intros Hz. unfold toSigned.
  change (2 ^ (32 - 1)) with 2147483648. change (2 ^ 32) with 4294967296.
  rewrite Z.mod_small; lia.
Qed.

(** The scaled sample is a 16-bit value: -1 reaches -32768 through the
    32768 branch, +1 reaches 32767 through the other. *)
Lemma scaled_range (c : Q) :
  (-1 <= c <= 1)%Q -> -32768 <= truncQ (c * thresholdScale c) <= 32767.
Proof.
  intros [Hlo Hhi]. unfold thresholdScale.
  destruct (Qltb c (-1 # 2)) eqn:E.
  - apply Qltb_spec in E.
    destruct (truncQ_nonpos (c * 32768)) as [H1 H2]; [lra|].
    assert (H3 : (inject_Z (-32768) <= inject_Z (truncQ (c * 32768)))%Q)
      by (change (inject_Z (-32768)) with (-32768)%Q; lra).
    assert (H4 : (inject_Z (truncQ (c * 32768)) < inject_Z 1)%Q)
      by (change (inject_Z 1) with 1%Q; lra).
    apply inject_Z_le_inv in H3. apply inject_Z_lt_inv in H4. lia.
  - apply Qltb_false in E.
    pose proof (truncQ_bounds (c * 32767) 32767) as Hb.
    change (inject_Z 32767) with 32767%Q in Hb.
    assert (- 32767 <= truncQ (c * 32767) <= 32767) by (apply Hb; lra).
    lia.
Qed.

(** No wrap-around happens in [| 0]: the word is the truncated product. *)
Lemma scaleSample_value (q : Q) :
  scaleSample (Fin q) = truncQ (Qclamp q * thresholdScale (Qclamp q)).
Proof.
  rewrite scaleSample_Fin. apply toSigned32_small.
  pose proof (scaled_range (Qclamp q) (Qclamp_range q)). lia.
Qed.

(** Samples that are not finite: NaN is written as 0, the infinities as the
    two extremes. *)
Example scaleSample_special :
  scaleSample NaN = 0 /\ scaleSample PosInf = 32767 /\
  scaleSample NegInf = -32768.
Proof. repeat split; reflexivity. Qed.

(** The frame loop starts at the cursor the header left behind (44), not at
    frame 0: of 46 frames only the last two are written, first in the data
    chunk, and the rest of the chunk stays zero. *)
Example bufferToWave_46_frames :
  bufferToWave
    (mkAudioBuffer 24000 [repeat (Fin (1 # 2)) 44 ++ [Fin (-3 # 4); Fin 1]])
    46
  = Returns (canonicalHeader 1 136 24000
             ++ le_bytes 2 (-24576) ++ le_bytes 2 32767 ++ repeat 0 88).
Proof. vm_compute. reflexivity. Qed.

(** ** WAVEncoder: the claims *)

(** C6: for every buffer and frame limit, [bufferToWave] returns exactly
    [frameLimit * channelCount * 2 + 44] bytes, starting with the canonical
    44-byte little-endian RIFF/WAVE header; the ChunkSize field at offset 4
    holds [totalLength - 8] and the Subchunk2Size field at offset 40 holds
    [totalLength - 44] (as numbers, for any file a 32-bit field can size). *)
Theorem bufferToWave_length_and_header
    (abuffer : AudioBuffer number) (len : nat) :
  let numOfChan := numberOfChannels abuffer in
  let total := (len * numOfChan * 2 + 44)%nat in
  exists out,
    bufferToWave abuffer len = Returns out /\
    List.length out = total /\
    firstn 44 out = canonicalHeader numOfChan total (sampleRate abuffer) /\
    firstn 4 (skipn 4 out) = le_bytes 4 (Z.of_nat total - 8) /\
    firstn 4 (skipn 40 out) = le_bytes 4 (Z.of_nat total - 44) /\
    (Z.of_nat total < 2 ^ 32 ->
     le_value (firstn 4 (skipn 4 out)) = Z.of_nat total - 8 /\
     le_value (firstn 4 (skipn 40 out)) = Z.of_nat total - 44).
Proof.
  intros numOfChan total.
  pose proof (bufferToWave_bytes abuffer len) as Hbytes.
  cbv zeta in Hbytes. fold numOfChan in Hbytes. fold total in Hbytes.
  eexists. split; [exact Hbytes|].
  set (body := flat_map _ _ ++ repeat 0 _).
  assert (Hbody : List.length body = (len * numOfChan * 2)%nat).
  { unfold body. rewrite length_app, repeat_length.
    rewrite (flat_map_constant_length (c := (2 * numOfChan)%nat)).
    - rewrite length_seq.
      destruct (Nat.le_gt_cases len 44).
      + rewrite Nat.min_r by lia. replace (len - 44)%nat with O by lia. nia.
      + rewrite Nat.min_l by lia.
        remember (len - 44)%nat as rest eqn:Hrest.
        replace len with (rest + 44)%nat by lia. nia.
    - intros p _. apply frameBytes_length. }
  assert (H4 : firstn 4 (skipn 4 (canonicalHeader numOfChan total
                                    (sampleRate abuffer) ++ body))
               = le_bytes 4 (Z.of_nat total - 8)) by reflexivity.
  assert (H40 : firstn 4 (skipn 40 (canonicalHeader numOfChan total
                                      (sampleRate abuffer) ++ body))
                = le_bytes 4 (Z.of_nat total - 44)) by reflexivity.
  split; [|split; [|split; [exact H4|split; [exact H40|]]]].
  - rewrite length_app, Hbody. unfold total. cbn. lia.
  - reflexivity.
  - intros Hsmall. rewrite H4, H40, !le_value_le_bytes.
    change (256 ^ Z.of_nat 4) with (2 ^ 32).
    assert (44 <= Z.of_nat total) by (unfold total; lia).
    rewrite !Z.mod_small by lia. split; reflexivity.
Qed.

(** C1 (as stated) fails: the sample -0.25 is negative, yet the word written
    for it is -8191 = trunc(-0.25 * 32767), not -8192 = trunc(-0.25 * 32768),
    because [0.5 + sample < 0] only holds below -0.5. *)
Lemma sign_scaling_fails_at_minus_quarter :
  exists out,
    bufferToWave (constantBuffer (-1 # 4)) 45 = Returns out /\
    int16_words (firstn 2 (skipn 44 out)) = [-8191] /\
    scaleSample (Fin (-1 # 4)) = -8191 /\
    signScaledWord (-1 # 4) = -8192 /\
    scaleSample (Fin (-1 # 4)) <> signScaledWord (-1 # 4).
Proof.
  eexists. split; [vm_compute; reflexivity|].
  repeat split; try (vm_compute; reflexivity).
  vm_compute. discriminate.
Qed.

(** C1 (amended): every finite sample is first clamped to [-1, 1] (a sample
    already in range is unchanged) and then scaled by a threshold at -0.5:
    a clamped sample below -0.5 is multiplied by 32768, every other clamped
    sample by 32767; the product is truncated toward zero, fits 16 bits and
    is written as a signed little-endian word that reads back unchanged. *)
Theorem scaleSample_threshold (q : Q) :
  let c := Qclamp q in
  (-1 <= c <= 1)%Q /\
  ((-1 <= q <= 1)%Q -> (c == q)%Q) /\
  scaleSample (Fin q)
  = truncQ (c * (if Qltb c (-1 # 2) then 32768 else 32767)) /\
  -32768 <= scaleSample (Fin q) <= 32767 /\
  int16_words (le_bytes 2 (scaleSample (Fin q))) = [scaleSample (Fin q)].
Proof.
  intros c. pose proof (Qclamp_range q) as Hc. fold c in Hc.
  pose proof (scaled_range c Hc) as Hr.
  pose proof (scaleSample_value q) as Hs. fold c in Hs.
  split; [exact Hc|]. split; [apply Qclamp_id|].
  split; [exact Hs|]. rewrite Hs.
  split; [exact Hr|]. apply int16_words_le_bytes. exact Hr.
Qed.

(** C2 (as stated) fails: 45 frames of the constant 1 - 2^-17 encode to the
    word 32766, which decodes to 1 - 2^-14; the error 7/131072 exceeds
    1/32767. *)
Lemma roundtrip_within_32767th_fails :
  ~ roundTripWithin (1 # 32767) (constantBuffer (131071 # 131072)) 45.
Proof.
  intros [out [Hout Hall]].
  vm_compute in Hout. injection Hout as <-.
  destruct (Hall O O (repeat (Fin (131071 # 131072)) 45) (131071 # 131072))
    as [d [Hd Herr]]; [lia|reflexivity|reflexivity|].
  vm_compute in Hd. injection Hd as <-.
  vm_compute in Herr. apply Herr. reflexivity.
Qed.

(** C2 (amended): for every sample in [-1, 1], the 16-bit word the encoder
    computes for it, mapped back through the decoder's division by 32768,
    lies within 1/16384 of the sample. *)
Theorem quantise_dequantise_error (q : Q) :
  (-1 <= q <= 1)%Q ->
  exists d,
    int16ToFloat (num_of_Z (scaleSample (Fin q))) = Fin d /\
    (Qabs (d - q) < 1 # 16384)%Q.
Proof.
  intros Hq.
  pose proof (Qclamp_range q) as Hc.
  pose proof (Qclamp_id q Hq) as Hid.
  pose proof (scaleSample_value q) as Hs. unfold thresholdScale in Hs.
  set (c := Qclamp q) in *.
  exists (inject_Z (scaleSample (Fin q)) / 32768)%Q.
  split; [reflexivity|].
  apply Qabs_Qlt_condition. rewrite Hs.
  match goal with
  | |- context [(?t / 32768)%Q] =>
      change (t / 32768)%Q with (t * (1 # 32768))%Q
  end.
  destruct (Qltb c (-1 # 2)) eqn:E.
  - apply Qltb_spec in E.
    destruct (truncQ_nonpos (c * 32768)) as [H1 H2]; [lra|].
    split; lra.
  - apply Qltb_false in E.
    destruct (Qlt_le_dec c 0) as [Hneg|Hpos].
    + destruct (truncQ_nonpos (c * 32767)) as [H1 H2]; [lra|].
      split; lra.
    + destruct (truncQ_nonneg (c * 32767)) as [H1 H2]; [lra|].
      split; lra.
Qed.

Lemma quantise_dequantise_error_witness :
  exists d,
    int16ToFloat (num_of_Z (scaleSample (Fin (131071 # 131072)))) = Fin d /\
    (Qabs (d - (131071 # 131072)) < 1 # 16384)%Q.
Proof.
  apply (quantise_dequantise_error (131071 # 131072)).
  split; vm_compute; discriminate.
Defined.

(** ** PCMDecoder *)

Lemma int16_words_length (bytes : list Z) :
  List.length (int16_words bytes) = (List.length bytes / 2)%nat.
Proof.
  remember (List.length bytes) as k eqn:Hk.
  revert bytes Hk. induction k as [k IH] using lt_wf_ind. intros bytes Hk.
  destruct bytes as [|lo [|hi rest]]; subst k; [reflexivity|reflexivity|].
  cbn [int16_words List.length].
  rewrite (IH (List.length rest)) by (cbn; lia || reflexivity).
  change (S (S (List.length rest))) with (1 * 2 + List.length rest)%nat.
  rewrite Nat.div_add_l by lia. lia.
Qed.

Lemma typed_set_length {A} (a : list A) (i : nat) (v : A) :
  List.length (typed_set a i v) = List.length a.
Proof.
  unfold typed_set. destruct (Nat.ltb_spec i (List.length a)); [|reflexivity].
  rewrite length_app, firstn_length_le by lia.
  cbn [List.length]. rewrite length_skipn. lia.
Qed.

(** The frame count of [n] words in [nc >= 1] channels, and its conversion
    to a buffer length. *)
Lemma frameCount_Fin (n : nat) (nc : Z) :
  1 <= nc ->
  num_div (num_of_nat n) (num_of_Z nc)
  = Fin (inject_Z (Z.of_nat n) / inject_Z nc).
Proof.
  intros Hnc. unfold num_div, num_of_nat, num_of_Z, Qsign. cbn [Qnum inject_Z].
  destruct (Z.compare_spec nc 0); try lia; reflexivity.
Qed.

Lemma ToLength_frameCount (n : nat) (nc : Z) :
  1 <= nc ->
  ToLength (Fin (inject_Z (Z.of_nat n) / inject_Z nc)) = Z.of_nat n / nc.
Proof.
  intros Hnc. destruct nc as [|p|p]; try lia.
  unfold ToLength, truncQ. cbn.
  rewrite Z.mul_1_r. apply Z.quot_div_nonneg; lia.
Qed.

Lemma frameCount_below_fuel (n : nat) (nc : Z) :
  1 <= nc ->
  (inject_Z (Z.of_nat n) / inject_Z nc < inject_Z (Z.of_nat (O + S n)))%Q.
Proof.
  intros Hnc. apply Qlt_shift_div_r.
  - change 0%Q with (inject_Z 0). rewrite <- Zlt_Qlt. lia.
  - rewrite <- inject_Z_mult, <- Zlt_Qlt. nia.
Qed.

(** The sample loop ends within its fuel and keeps the channel length. *)
Lemma fillChannel_returns dataInt16 numChannels channel (fc : Q) :
  forall fuel i channelData,
    (fc < inject_Z (Z.of_nat (i + fuel)))%Q ->
    exists filled,
      fillChannel fuel dataInt16 numChannels channel (Fin fc) i channelData
      = Returns filled /\
      List.length filled = List.length channelData.
Proof.
  induction fuel as [|fuel IH]; intros i channelData Hfc;
    cbn [fillChannel num_ltb num_of_nat num_of_Z];
    destruct (Qltb (inject_Z (Z.of_nat i)) fc) eqn:E.
  - apply Qltb_spec in E. rewrite Nat.add_0_r in Hfc. lra.
  - eauto.
  - destruct (IH (S i) (typed_set channelData i
        (int16ToFloat (typed_get dataInt16 (i * numChannels + channel)%nat))))
      as [filled [Hrun Hlen]].
    + replace (S i + fuel)%nat with (i + S fuel)%nat by lia. exact Hfc.
    + exists filled. split; [exact Hrun|].
      rewrite Hlen. apply typed_set_length.
  - eauto.
Qed.

Lemma shaped_typed_set nc frames rate chans channel filled :
  shaped nc frames (mkAudioBuffer rate chans) ->
  List.length filled = frames ->
  shaped nc frames (mkAudioBuffer rate (typed_set chans channel filled)).
Proof.
  intros [Hn Hall] Hlen. split; cbn [channels] in *.
  - now rewrite typed_set_length.
  - unfold typed_set.
    destruct (Nat.ltb_spec channel (List.length chans)); [|exact Hall].
    apply Forall_app. split.
    + apply Forall_forall. intros c Hc.
      apply (proj1 (Forall_forall _ _) Hall c).
      rewrite <- (firstn_skipn channel chans). apply in_or_app. now left.
    + constructor; [exact Hlen|].
      apply Forall_forall. intros c Hc.
      apply (proj1 (Forall_forall _ _) Hall c).
      rewrite <- (firstn_skipn (S channel) chans). apply in_or_app. now right.
Qed.

Lemma fillChannels_returns dataInt16 numChannels (fc : Q) nc frames :
  (fc < inject_Z (Z.of_nat (O + S (List.length dataInt16))))%Q ->
  forall chans buffer,
    Forall (fun channel => (channel < nc)%nat) chans ->
    shaped nc frames buffer ->
    exists b,
      fillChannels chans dataInt16 numChannels (Fin fc) buffer = Returns b /\
      shaped nc frames b /\
      sampleRate b = sampleRate buffer.
Proof.
  intros Hfc.
  induction chans as [|channel rest IH]; intros buffer Hin Hshape.
  - exists buffer. cbn. auto.
  - inversion Hin as [|? ? Hch Hrest]; subst.
    cbn [fillChannels]. unfold getChannelData.
    destruct Hshape as [Hn Hall].
    destruct (nth_error (channels buffer) channel) as [channelData|] eqn:Hget;
      [|apply nth_error_None in Hget; lia].
    cbn [bind].
    destruct (fillChannel_returns dataInt16 numChannels channel fc
                (S (List.length dataInt16)) O channelData Hfc)
      as [filled [Hrun Hlen]].
    rewrite Hrun. cbn [bind].
    assert (Hdata : List.length channelData = frames).
    { apply (proj1 (Forall_forall _ _) Hall).
      eapply nth_error_In; eauto. }
    destruct (IH (mkAudioBuffer (sampleRate buffer)
                    (typed_set (channels buffer) channel filled)) Hrest)
      as [b [Hb [Hs Hr]]].
    + destruct buffer as [r cs]. apply shaped_typed_set; [split; auto|].
      cbn in *. lia.
    + exists b. auto.
Qed.

Lemma createBuffer_outcome ctx nc (n : nat) rate :
  1 <= nc ->
  createBuffer ctx nc (Fin (inject_Z (Z.of_nat n) / inject_Z nc)) rate
  = if (nc <=? maxChannels ctx) && (nc <=? Z.of_nat n)
       && (minSampleRate ctx <=? rate) && (rate <=? maxSampleRate ctx)
    then Returns (mkAudioBuffer rate
                    (repeat (repeat (Fin 0) (Z.to_nat (Z.of_nat n / nc)))
                            (Z.to_nat nc)))
    else Throws NotSupportedError.
Proof.
  intros Hnc. unfold createBuffer. rewrite ToLength_frameCount by exact Hnc.
  destruct (Z.leb_spec 1 nc) as [_|]; [|lia]. cbn [andb].
  assert (Hframes : (1 <=? Z.of_nat n / nc) = (nc <=? Z.of_nat n)).
  { destruct (Z.leb_spec nc (Z.of_nat n)) as [Hle|Hgt].
    - apply Z.leb_le. apply Z.div_le_lower_bound; lia.
    - apply Z.leb_gt. rewrite Z.div_small; lia. }
  rewrite Hframes. reflexivity.
Qed.

Lemma decodeAudioData_returns bytes ctx rate nc :
  decodable bytes ctx rate nc ->
  exists b,
    decodeAudioData bytes ctx rate nc = Returns b /\
    shaped (Z.to_nat nc)
           (Z.to_nat (Z.of_nat (List.length bytes) / 2 / nc)) b /\
    sampleRate b = rate.
Proof.
  intros (Heven & [Hnc Hmax] & Hframe & [Hmin Hrate]).
  unfold decodeAudioData, Int16Array_of. rewrite Heven. cbn [bind].
  rewrite frameCount_Fin, createBuffer_outcome by exact Hnc.
  rewrite int16_words_length.
  destruct (Z.leb_spec nc (maxChannels ctx)); [|lia].
  destruct (Z.leb_spec nc (Z.of_nat (List.length bytes / 2))); [|lia].
  destruct (Z.leb_spec (minSampleRate ctx) rate); [|lia].
  destruct (Z.leb_spec rate (maxSampleRate ctx)); [|lia].
  cbn [andb bind].
  rewrite <- (int16_words_length bytes).
  destruct (fillChannels_returns (int16_words bytes) (Z.to_nat nc)
              (inject_Z (Z.of_nat (List.length (int16_words bytes)))
               / inject_Z nc)
              (Z.to_nat nc)
              (Z.to_nat (Z.of_nat (List.length (int16_words bytes)) / nc))
              (frameCount_below_fuel _ nc Hnc)
              (seq O (Z.to_nat nc))
              (mkAudioBuffer rate
                 (repeat (repeat (Fin 0)
                    (Z.to_nat (Z.of_nat (List.length (int16_words bytes)) / nc)))
                    (Z.to_nat nc))))
    as [b [Hb [Hshape Hr]]].
  - apply Forall_forall. intros c Hc. apply in_seq in Hc. lia.
  - split; cbn [channels].
    + apply repeat_length.
    + apply Forall_forall. intros c Hc. apply repeat_spec in Hc. subst c.
      apply repeat_length.
  - exists b. split; [exact Hb|]. split; [|exact Hr].
    rewrite int16_words_length, Nat2Z.inj_div in Hshape. exact Hshape.
Qed.

Lemma decodeAudioData_odd bytes ctx rate nc :
  Nat.even (List.length bytes) = false ->
  decodeAudioData bytes ctx rate nc = Throws RangeError.
Proof.
  intros Hodd. unfold decodeAudioData, Int16Array_of. now rewrite Hodd.
Qed.

Lemma decodeAudioData_unsupported bytes ctx rate nc :
  Nat.even (List.length bytes) = true ->
  ~ decodable bytes ctx rate nc ->
  decodeAudioData bytes ctx rate nc = Throws NotSupportedError.
Proof.
  intros Heven Hno. unfold decodeAudioData, Int16Array_of.
  rewrite Heven. cbn [bind].
  destruct (Z.le_gt_cases 1 nc) as [Hnc|Hnc].
  - rewrite frameCount_Fin, createBuffer_outcome by exact Hnc.
    rewrite int16_words_length.
    destruct (Z.leb_spec nc (maxChannels ctx)); [|reflexivity].
    destruct (Z.leb_spec nc (Z.of_nat (List.length bytes / 2)));
      [|reflexivity].
    destruct (Z.leb_spec (minSampleRate ctx) rate); [|reflexivity].
    destruct (Z.leb_spec rate (maxSampleRate ctx)); [|reflexivity].
    exfalso. apply Hno. unfold decodable. auto.
  - unfold createBuffer.
    destruct (Z.leb_spec 1 nc) as [|_]; [lia|]. reflexivity.
Qed.

(** *** The decoded samples *)

Lemma nth_error_typed_set_same {A} (a : list A) (i : nat) (v : A) :
  (i < List.length a)%nat -> nth_error (typed_set a i v) i = Some v.
Proof.
  intros Hi. unfold typed_set.
  destruct (Nat.ltb_spec i (List.length a)); [|lia].
  rewrite nth_error_app2 by (rewrite firstn_length_le; lia).
  rewrite firstn_length_le, Nat.sub_diag by lia. reflexivity.
Qed.

Lemma nth_error_typed_set_other {A} (a : list A) (i j : nat) (v : A) :
  j <> i -> nth_error (typed_set a i v) j = nth_error a j.
Proof.
  intros Hij. unfold typed_set.
  destruct (Nat.ltb_spec i (List.length a)) as [Hi|]; [|reflexivity].
  revert i j Hij Hi. induction a as [|x a IH]; intros i j Hij Hi.
  - cbn in Hi. lia.
  - destruct i as [|i], j as [|j]; cbn in *; try reflexivity; try lia.
    apply IH; lia.
Qed.

Lemma fillChannel_length dataInt16 numChannels channel frameCount :
  forall fuel i channelData filled,
    fillChannel fuel dataInt16 numChannels channel frameCount i channelData
    = Returns filled ->
    List.length filled = List.length channelData.
Proof.
  induction fuel as [|fuel IH]; intros i channelData filled;
    cbn [fillChannel]; destruct (num_ltb (num_of_nat i) frameCount);
    try discriminate; try (intros [= <-]; reflexivity).
  intros Hrun. rewrite (IH _ _ _ Hrun). apply typed_set_length.
Qed.

(** Every frame that exists in the channel is filled by the sample loop. *)
Lemma fillChannel_content dataInt16 numChannels channel (fc : Q) :
  forall fuel i channelData filled,
    fillChannel fuel dataInt16 numChannels channel (Fin fc) i channelData
    = Returns filled ->
    (forall j, (j < List.length channelData)%nat ->
               (inject_Z (Z.of_nat j) < fc)%Q) ->
    (forall j, (j < i)%nat -> (j < List.length channelData)%nat ->
               nth_error channelData j
               = Some (decodedSample dataInt16 numChannels channel j)) ->
    forall j, (j < List.length channelData)%nat ->
              nth_error filled j
              = Some (decodedSample dataInt16 numChannels channel j).
Proof.
  assert (Hstop : forall i (channelData : list number),
    Qltb (inject_Z (Z.of_nat i)) fc = false ->
    (forall j, (j < List.length channelData)%nat ->
               (inject_Z (Z.of_nat j) < fc)%Q) ->
    forall j, (j < List.length channelData)%nat -> (j < i)%nat).
  { intros i cd E Hbelow j Hj. apply Qltb_false in E.
    specialize (Hbelow j Hj).
    assert (H : (inject_Z (Z.of_nat j) < inject_Z (Z.of_nat i))%Q) by lra.
    apply inject_Z_lt_inv in H. lia. }
  induction fuel as [|fuel IH]; intros i channelData filled;
    cbn [fillChannel num_ltb num_of_nat num_of_Z];
    destruct (Qltb (inject_Z (Z.of_nat i)) fc) eqn:E.
  - discriminate.
  - intros [= <-] Hbelow Hdone j Hj. apply Hdone; [|exact Hj].
    apply (Hstop i channelData E Hbelow j Hj).
  - intros Hrun Hbelow Hdone j Hj.
    rewrite <- (typed_set_length channelData i
                  (decodedSample dataInt16 numChannels channel i)) in Hj.
    apply (IH _ _ _ Hrun); [| |exact Hj].
    + intros k Hk. apply Hbelow. now rewrite typed_set_length in Hk.
    + intros k Hk Hlen. rewrite typed_set_length in Hlen.
      destruct (Nat.eq_dec k i) as [->|Hne].
      * apply nth_error_typed_set_same. exact Hlen.
      * rewrite nth_error_typed_set_other by exact Hne.
        apply Hdone; [lia|exact Hlen].
  - intros [= <-] Hbelow Hdone j Hj. apply Hdone; [|exact Hj].
    apply (Hstop i channelData E Hbelow j Hj).
Qed.

(** The channels listed are filled, the others are left as they were. *)
Lemma fillChannels_content dataInt16 numChannels (fc : Q) nc frames :
  (forall j, (j < frames)%nat -> (inject_Z (Z.of_nat j) < fc)%Q) ->
  forall chans buffer b,
    fillChannels chans dataInt16 numChannels (Fin fc) buffer = Returns b ->
    NoDup chans ->
    shaped nc frames buffer ->
    (forall c, ~ In c chans ->
               nth_error (channels b) c = nth_error (channels buffer) c) /\
    (forall c, In c chans ->
       exists channelData,
         nth_error (channels b) c = Some channelData /\
         forall j, (j < frames)%nat ->
           nth_error channelData j
           = Some (decodedSample dataInt16 numChannels c j)).
Proof.
  intros Hbelow.
  induction chans as [|channel rest IH]; intros buffer b Hrun Hnodup Hshape.
  - cbn in Hrun. injection Hrun as <-. split; [reflexivity|contradiction].
  - inversion Hnodup as [|? ? Hfresh Hnodup']; subst.
    cbn [fillChannels] in Hrun. unfold getChannelData in Hrun.
    destruct (nth_error (channels buffer) channel) as [channelData|] eqn:Hget;
      [|discriminate].
    cbn [bind] in Hrun.
    destruct (fillChannel _ dataInt16 numChannels channel (Fin fc) O channelData)
      as [filled| |] eqn:Hfill; cbn [bind] in Hrun; try discriminate.
    assert (Hlen : List.length channelData = frames).
    { destruct Hshape as [_ Hall].
      apply (proj1 (Forall_forall _ _) Hall). eapply nth_error_In; eauto. }
    assert (Hfilled : forall j, (j < frames)%nat ->
              nth_error filled j
              = Some (decodedSample dataInt16 numChannels channel j)).
    { intros j Hj.
      apply (fillChannel_content _ _ _ _ _ _ _ _ Hfill).
      - intros k Hk. apply Hbelow. lia.
      - intros k Hk. lia.
      - lia. }
    assert (Hfl : List.length filled = frames)
      by (rewrite (fillChannel_length _ _ _ _ _ _ _ _ Hfill); exact Hlen).
    destruct (IH _ _ Hrun Hnodup') as [Hkeep Hdone].
    { destruct buffer as [r cs]. apply shaped_typed_set; assumption. }
    cbn [channels] in Hkeep, Hdone. split.
    + intros c Hc. rewrite Hkeep by (intros Hin; apply Hc; now right).
      apply nth_error_typed_set_other. intros ->. apply Hc. now left.
    + intros c [<-|Hc]; [|apply Hdone; exact Hc].
      exists filled. split; [|exact Hfilled].
      rewrite (Hkeep channel Hfresh).
      apply nth_error_typed_set_same.
      apply nth_error_Some. congruence.
Qed.

Lemma frames_below_frameCount (n : nat) (nc : Z) (j : nat) :
  1 <= nc ->
  (j < Z.to_nat (Z.of_nat n / nc))%nat ->
  (inject_Z (Z.of_nat j) < inject_Z (Z.of_nat n) / inject_Z nc)%Q.
Proof.
  intros Hnc Hj. apply Qlt_shift_div_l.
  - change 0%Q with (inject_Z 0). rewrite <- Zlt_Qlt. lia.
  - rewrite <- inject_Z_mult, <- Zlt_Qlt.
    assert (Hle : Z.of_nat j + 1 <= Z.of_nat n / nc) by lia.
    pose proof (Z.mul_div_le (Z.of_nat n) nc ltac:(lia)). nia.
Qed.

(** Interleaving: in the buffer an accepted input decodes to, frame [j] of
    channel [c] is the 16-bit word at index [j * channelCount + c], divided
    by 32768. *)
Lemma decodeAudioData_samples bytes ctx rate nc b :
  decodable bytes ctx rate nc ->
  decodeAudioData bytes ctx rate nc = Returns b ->
  forall c j,
    (c < Z.to_nat nc)%nat ->
    (j < Z.to_nat (Z.of_nat (List.length bytes / 2) / nc))%nat ->
    exists channelData v,
      nth_error (channels b) c = Some channelData /\
      nth_error (int16_words bytes) (j * Z.to_nat nc + c) = Some v /\
      nth_error channelData j = Some (Fin (inject_Z v / 32768)).
Proof.
  intros (Heven & [Hnc Hmax] & Hframe & [Hmin Hrate]) Hrun c j Hc Hj.
  unfold decodeAudioData, Int16Array_of in Hrun.
  rewrite Heven in Hrun. cbn [bind] in Hrun.
  rewrite frameCount_Fin, createBuffer_outcome in Hrun by exact Hnc.
  rewrite int16_words_length in Hrun.
  destruct (Z.leb_spec nc (maxChannels ctx)); [|lia].
  destruct (Z.leb_spec nc (Z.of_nat (List.length bytes / 2))); [|lia].
  destruct (Z.leb_spec (minSampleRate ctx) rate); [|lia].
  destruct (Z.leb_spec rate (maxSampleRate ctx)); [|lia].
  cbn [andb bind] in Hrun.
  set (n := (List.length bytes / 2)%nat) in *.
  set (frames := Z.to_nat (Z.of_nat n / nc)) in *.
  destruct (fillChannels_content (int16_words bytes) (Z.to_nat nc)
              (inject_Z (Z.of_nat n) / inject_Z nc) (Z.to_nat nc) frames
              (fun k Hk => frames_below_frameCount n nc k Hnc Hk)
              _ _ _ Hrun (seq_NoDup _ _)) as [_ Hdone].
  { split; cbn [channels].
    - apply repeat_length.
    - apply Forall_forall. intros d Hd. apply repeat_spec in Hd. subst d.
      apply repeat_length. }
  destruct (Hdone c) as [channelData [Hget Hval]];
    [apply in_seq; lia|].
  specialize (Hval j Hj). unfold decodedSample, typed_get in Hval.
  assert (Hin : (j * Z.to_nat nc + c < List.length (int16_words bytes))%nat).
  { rewrite int16_words_length. fold n.
    assert (Hle : Z.of_nat j + 1 <= Z.of_nat n / nc) by lia.
    pose proof (Z.mul_div_le (Z.of_nat n) nc ltac:(lia)). nia. }
  destruct (nth_error (int16_words bytes) (j * Z.to_nat nc + c)) as [v|] eqn:Hv;
    [|apply nth_error_None in Hv; lia].
  exists channelData, v. split; [exact Hget|]. split; [reflexivity|].
  exact Hval.
Qed.

(** C3 (as stated) fails: one 16-bit word for two channels is an even-length
    input with channelCount >= 1 and floor(2/2/2) = 0 frames, but no buffer
    of 0 frames is returned: [createBuffer] refuses a zero length. *)
Lemma partial_frame_is_refused :
  Nat.even (List.length [1; 0]) = true /\
  1 <= 2 /\
  decodeAudioData [1; 0] browserContext 24000 2 = Throws NotSupportedError /\
  ~ returnsWholeFrames [1; 0] browserContext 24000 2.
Proof.
  split; [reflexivity|]. split; [lia|]. split; [reflexivity|].
  intros [b [Hb _]]. vm_compute in Hb. discriminate.
Qed.

(** C3 (amended): for every even-length byte sequence that holds at least one
    whole frame, with a channel count >= 1 and a sample rate the audio context
    supports, [decodeAudioData] returns a buffer whose frame count is
    floor(bytes.length / 2 / channelCount), every channel having that length;
    a trailing incomplete frame is dropped. *)
Theorem decodeAudioData_frameCount bytes ctx rate nc :
  Nat.even (List.length bytes) = true ->
  1 <= nc <= maxChannels ctx ->
  nc <= Z.of_nat (List.length bytes / 2) ->
  minSampleRate ctx <= rate <= maxSampleRate ctx ->
  exists b,
    decodeAudioData bytes ctx rate nc = Returns b /\
    Z.of_nat (bufferLength b) = Z.of_nat (List.length bytes) / 2 / nc /\
    Z.of_nat (numberOfChannels b) = nc /\
    Forall (fun c => Z.of_nat (List.length c)
                     = Z.of_nat (List.length bytes) / 2 / nc) (channels b).
Proof.
  intros Heven Hnc Hframe Hrate.
  destruct (decodeAudioData_returns bytes ctx rate nc)
    as [b [Hb [[Hn Hall] _]]]; [unfold decodable; auto|].
  assert (Hpos : 0 <= Z.of_nat (List.length bytes) / 2 / nc).
  { apply Z.div_pos; [apply Z.div_pos|]; lia. }
  assert (Hlen : Forall (fun c => Z.of_nat (List.length c)
                     = Z.of_nat (List.length bytes) / 2 / nc) (channels b)).
  { eapply Forall_impl; [|exact Hall]. cbn. intros c Hc. rewrite Hc. lia. }
  exists b. split; [exact Hb|]. split; [|split; [|exact Hlen]].
  - unfold bufferLength. destruct (channels b) as [|c cs] eqn:Hcs.
    + cbn in Hn. lia.
    + now inversion Hlen.
  - unfold numberOfChannels. rewrite Hn. lia.
Qed.

Lemma decodeAudioData_frameCount_witness :
  exists b,
    decodeAudioData fiveWords browserContext 24000 2 = Returns b /\
    Z.of_nat (bufferLength b) = Z.of_nat (List.length fiveWords) / 2 / 2 /\
    Z.of_nat (numberOfChannels b) = 2 /\
    Forall (fun c => Z.of_nat (List.length c)
                     = Z.of_nat (List.length fiveWords) / 2 / 2) (channels b).
Proof.
  apply (decodeAudioData_frameCount fiveWords browserContext 24000 2).
  - reflexivity.
  - cbn. lia.
  - cbn. lia.
  - cbn. lia.
Defined.

(** C7 (as stated) fails: the empty byte sequence has even length and is
    decoded with channelCount 1, yet the call raises. *)
Lemma empty_input_is_refused :
  Nat.even (List.length (@nil Z)) = true /\
  0 < 1 /\
  decodeAudioData [] browserContext 24000 1 = Throws NotSupportedError.
Proof. repeat split; reflexivity. Qed.

(** C7 (amended): [decodeAudioData] raises whenever the byte length is odd
    (a RangeError from the 16-bit view) and whenever channelCount <= 0; it
    also raises (NotSupportedError from [createBuffer]) when the input holds
    no whole frame, or the channel count or sample rate is outside what the
    audio context supports.  For every other input it returns an
    AudioBuffer, and it never fails to terminate. *)
Theorem decodeAudioData_outcome bytes ctx rate nc :
  ((exists b, decodeAudioData bytes ctx rate nc = Returns b)
   <-> decodable bytes ctx rate nc) /\
  ((exists e, decodeAudioData bytes ctx rate nc = Throws e)
   <-> ~ decodable bytes ctx rate nc) /\
  (Nat.even (List.length bytes) = false ->
   decodeAudioData bytes ctx rate nc = Throws RangeError) /\
  (Nat.even (List.length bytes) = true -> ~ decodable bytes ctx rate nc ->
   decodeAudioData bytes ctx rate nc = Throws NotSupportedError) /\
  (nc <= 0 -> exists e, decodeAudioData bytes ctx rate nc = Throws e).
Proof.
  assert (Hcases : decodable bytes ctx rate nc \/
                   (~ decodable bytes ctx rate nc /\
                    exists e, decodeAudioData bytes ctx rate nc = Throws e)).
  { destruct (Nat.even (List.length bytes)) eqn:Heven.
    - destruct (Z_le_dec 1 nc) as [H1|H1];
      [destruct (Z_le_dec nc (maxChannels ctx)) as [H2|H2];
       [destruct (Z_le_dec nc (Z.of_nat (List.length bytes / 2))) as [H3|H3];
        [destruct (Z_le_dec (minSampleRate ctx) rate) as [H4|H4];
         [destruct (Z_le_dec rate (maxSampleRate ctx)) as [H5|H5]|]|]|]|].
      1: left; unfold decodable; auto.
      all: assert (Hno : ~ decodable bytes ctx rate nc)
             by (unfold decodable; intros (_ & ? & ? & ?); lia).
      all: right; split; [exact Hno|];
           exists NotSupportedError;
           apply decodeAudioData_unsupported; auto.
    - right. split; [intros (He & _); congruence|]. exists RangeError.
      apply decodeAudioData_odd; exact Heven. }
  split; [split|split; [split|split; [|split]]].
  - intros [b Hb]. destruct Hcases as [Hok|[_ [e He]]]; [exact Hok|congruence].
  - intros Hok. destruct (decodeAudioData_returns _ _ _ _ Hok) as [b [Hb _]].
    eauto.
  - intros [e He] Hok.
    destruct (decodeAudioData_returns _ _ _ _ Hok) as [b [Hb _]]. congruence.
  - intros Hno. destruct Hcases as [Hok|[_ He]]; [contradiction|exact He].
  - apply decodeAudioData_odd.
  - apply decodeAudioData_unsupported.
  - intros Hnc. destruct Hcases as [(_ & ? & _)|[_ He]]; [lia|exact He].
Qed.

(** What the decoder makes of five words in two channels. *)
Example decodeAudioData_fiveWords :
  decodeAudioData fiveWords browserContext 24000 2
  = Returns (mkAudioBuffer 24000
      [[Fin (-32768 # 32768); Fin (1 # 32768)];
       [Fin (32767 # 32768); Fin (-1 # 32768)]]).
Proof. vm_compute. reflexivity. Qed.

(** ** QualityClassifier: score and verdict *)

Ltac among_scores :=
  vm_compute; repeat (first [left; reflexivity | right]).

Ltac score_is l :=
  idtac;
  let l' := eval hnf in l in
  lazymatch l' with
  | @cons _ ?z ?rest =>
      first [ exists z; split; [lia | vm_compute; reflexivity]
            | score_is rest ]
  end.

Ltac for_each_score H tac :=
  vm_compute in H;
  repeat (destruct H as [H|H]; [rewrite <- H; tac|]);
  try contradiction.

(** Whatever the statistics, the deductions leave one of [scoreValues]:
    at most 15 + 10 + 20 + 15 + 10 + 10 = 80 is taken off 100. *)
Lemma scoreOf_values (s : stats) :
  In (scoreOf s) (map float_of_Z scoreValues).
Proof.
  unfold scoreOf. cbv zeta.
  repeat match goal with
         | |- context [if ?c then _ else _] => destruct c
         end; among_scores.
Qed.

Lemma scoreValues_range (x : float) :
  In x (map float_of_Z scoreValues) -> integerScore 20 x.
Proof.
  intros H. unfold integerScore.
  for_each_score H ltac:(score_is scoreValues).
Qed.

Lemma integerScore_weaken lo x : 0 <= lo -> integerScore lo x -> integerScore 0 x.
Proof. intros Hlo (z & Hz & ->). exists z. split; [lia|reflexivity]. Qed.

(** Capping a score keeps it an integer score. *)
Lemma fmin_cap (x : float) (cap : Z) :
  In x (map float_of_Z scoreValues) ->
  In cap [30; 40; 45; 50; 55] ->
  integerScore 0 (fmin x (float_of_Z cap)).
Proof.
  intros Hx Hcap. unfold integerScore.
  cbn [In] in Hcap.
  repeat (destruct Hcap as [<-|Hcap]); try contradiction;
    for_each_score Hx ltac:(score_is scoreValues).
Qed.

Lemma classify_wellFormed (f : features) (totalWindows : float) :
  integerScore 0 (score (classify f totalWindows)) /\
  reasonIffInvalid (classify f totalWindows).
Proof.
  unfold classify, reasonIffInvalid.
  pose proof (scoreOf_values (statsOf f totalWindows)) as Hscore.
  revert Hscore.
  generalize (scoreOf (statsOf f totalWindows)) as sc.
  generalize (statsOf f totalWindows) as s.
  intros s sc Hscore. cbv zeta.
  repeat match goal with
         | |- context [if ?c then _ else _] => destruct c
         end;
    cbn [invalid score reason valid];
    (split;
     [ try (apply (fmin_cap sc 30 Hscore); cbn; tauto);
       try (apply (fmin_cap sc 40 Hscore); cbn; tauto);
       try (apply (fmin_cap sc 45 Hscore); cbn; tauto);
       try (apply (fmin_cap sc 50 Hscore); cbn; tauto);
       try (apply (fmin_cap sc 55 Hscore); cbn; tauto);
       try (exists 20; split; [lia|reflexivity]);
       try (exists 30; split; [lia|reflexivity]);
       try (apply (integerScore_weaken 20); [lia|];
            apply scoreValues_range; exact Hscore)
     | split;
       [ first [ intros [why Hwhy]; discriminate Hwhy
               | intros _; reflexivity ]
       | first [ intros H; discriminate H
               | intros _; eexists; reflexivity ] ] ]).
Qed.

Lemma classify_valid_score (f : features) (totalWindows : float) :
  valid (classify f totalWindows) = true ->
  classify f totalWindows
  = mkResult true None (scoreOf (statsOf f totalWindows)).
Proof.
  unfold classify. cbv zeta.
  repeat match goal with
         | |- context [if ?c then _ else _] => destruct c
         end;
    cbn [invalid valid]; intros H; try discriminate; reflexivity.
Qed.

Lemma scoreValues_at_least_20 (x : float) :
  In x (map float_of_Z scoreValues) -> PrimFloat.leb 20 x = true.
Proof.
  intros H. for_each_score H ltac:(vm_compute; reflexivity).
Qed.

(** C8: every buffer lasting strictly less than 3.0 seconds, whatever its
    samples, is rejected at the first gate: invalid, score 0, the "too short"
    reason; nothing of the signal is read. *)
Theorem short_recording_is_rejected (buffer : AudioBuffer float) :
  (1 <= numberOfChannels buffer)%nat ->
  PrimFloat.ltb (duration buffer) 3 = true ->
  analyzeAudioQuality buffer = Returns tooShort /\
  valid tooShort = false /\
  score tooShort = 0%float /\
  reason tooShort
  = Some "Recording is too short (< 3s). Please upload at least 3-5 seconds of continuous speech."%string.
Proof.
  intros Hchan Hshort. split; [|repeat split].
  unfold analyzeAudioQuality, getChannelData, numberOfChannels in *.
  destruct (channels buffer) as [|data rest]; [cbn in Hchan; lia|].
  cbn [nth_error bind]. now rewrite Hshort.
Qed.

Lemma short_recording_is_rejected_witness :
  analyzeAudioQuality shortBuffer = Returns tooShort /\
  valid tooShort = false /\
  score tooShort = 0%float /\
  reason tooShort
  = Some "Recording is too short (< 3s). Please upload at least 3-5 seconds of continuous speech."%string.
Proof.
  apply (short_recording_is_rejected shortBuffer).
  - cbn. lia.
  - vm_compute. reflexivity.
Defined.

(** C9: every result [analyzeAudioQuality] returns is well-formed: the score
    is an integer between 0 and 100, and a reason is present exactly when
    the verdict is invalid. *)
Theorem analysis_result_wellFormed
    (buffer : AudioBuffer float) (r : AudioAnalysisResult) :
  analyzeAudioQuality buffer = Returns r ->
  integerScore 0 (score r) /\ reasonIffInvalid r.
Proof.
  unfold analyzeAudioQuality.
  destruct (getChannelData buffer 0) as [data| |]; cbn [bind];
    [|discriminate|discriminate].
  destruct (PrimFloat.ltb (duration buffer) 3).
  { intros [= <-]. split.
    - exists 0. split; [lia|reflexivity].
    - split; [reflexivity|intros _; eexists; reflexivity]. }
  destruct (PrimFloat.ltb 300 (duration buffer)).
  { intros [= <-]. split.
    - exists 0. split; [lia|reflexivity].
    - split; [reflexivity|intros _; eexists; reflexivity]. }
  destruct (extract data (float_of_Z (sampleRate buffer))) as [[f tw]| |];
    cbn [bind fst snd]; [|discriminate|discriminate].
  intros [= <-]. apply classify_wellFormed.
Qed.

Lemma analysis_result_wellFormed_witness :
  integerScore 0 (score (mkResult true None 100%float)) /\
  reasonIffInvalid (mkResult true None 100%float).
Proof.
  apply (analysis_result_wellFormed burstBuffer).
  vm_compute. reflexivity.
Defined.

(** C10: whenever the verdict is valid, the score is an integer of at least
    20: the deductions take at most 15 + 10 + 20 + 15 + 10 + 10 = 80 off the
    base of 100. *)
Theorem valid_score_at_least_20
    (buffer : AudioBuffer float) (r : AudioAnalysisResult) :
  analyzeAudioQuality buffer = Returns r ->
  valid r = true ->
  integerScore 20 (score r) /\ PrimFloat.leb 20 (score r) = true.
Proof.
  unfold analyzeAudioQuality.
  destruct (getChannelData buffer 0) as [data| |]; cbn [bind];
    [|discriminate|discriminate].
  destruct (PrimFloat.ltb (duration buffer) 3);
    [intros [= <-]; discriminate|].
  destruct (PrimFloat.ltb 300 (duration buffer));
    [intros [= <-]; discriminate|].
  destruct (extract data (float_of_Z (sampleRate buffer))) as [[f tw]| |];
    cbn [bind fst snd]; [|discriminate|discriminate].
  intros [= <-] Hvalid.
  rewrite (classify_valid_score f tw Hvalid). cbn [score].
  pose proof (scoreOf_values (statsOf f tw)) as Hscore.
  split; [apply scoreValues_range|apply scoreValues_at_least_20];
    exact Hscore.
Qed.

Lemma valid_score_at_least_20_witness :
  integerScore 20 (score (mkResult true None 100%float)) /\
  PrimFloat.leb 20 (score (mkResult true None 100%float)) = true.
Proof.
  apply (valid_score_at_least_20 burstBuffer).
  - vm_compute. reflexivity.
  - reflexivity.
Defined.

(** ** Doubles: order, and integers as doubles *)

Lemma SFcompare_Lt_antisym (x y : spec_float) :
  SFcompare x y = Some Lt -> SFcompare y x <> Some Lt.
Proof.
  destruct x as [sx|sx| |sx mx ex], y as [sy|sy| |sy my ey]; cbn;
    try destruct sx; try destruct sy; try discriminate;
    intros H; injection H as H; intros H'; injection H' as H';
    try discriminate.
  - rewrite (Z.compare_antisym ey ex) in H.
    destruct (ey ?= ex) eqn:E; cbn in H, H'; try discriminate.
    change (Pos.compare_cont Eq mx my) with (mx ?= my)%positive in H.
    change (Pos.compare_cont Eq my mx) with (my ?= mx)%positive in H'.
    rewrite (Pos.compare_antisym my mx) in H.
    rewrite H' in H. discriminate.
  - rewrite (Z.compare_antisym ey ex) in H.
    destruct (ey ?= ex) eqn:E; cbn in H, H'; try discriminate.
    change (Pos.compare_cont Eq mx my) with (mx ?= my)%positive in H.
    change (Pos.compare_cont Eq my mx) with (my ?= mx)%positive in H'.
    rewrite (Pos.compare_antisym my mx) in H.
    destruct (my ?= mx)%positive; discriminate.
Qed.

(** [a < b] and [b < a] never hold together. *)
Lemma ltb_antisym (a b : float) :
  PrimFloat.ltb a b = true -> PrimFloat.ltb b a = false.
Proof.
  rewrite !ltb_spec. unfold SFltb. intros H.
  destruct (SFcompare (Prim2SF a) (Prim2SF b)) as [[| |]|] eqn:E;
    try discriminate.
  pose proof (SFcompare_Lt_antisym _ _ E) as Hno.
  destruct (SFcompare (Prim2SF b) (Prim2SF a)) as [[| |]|];
    try reflexivity. congruence.
Qed.

Lemma ltb_irrefl (a : float) : PrimFloat.ltb a a = false.
Proof.
  destruct (PrimFloat.ltb a a) eqn:E; [|reflexivity].
  now rewrite (ltb_antisym a a E) in E.
Qed.

Lemma digits2_pos_size (p : positive) : digits2_pos p = Pos.size p.
Proof. induction p; cbn; congruence. Qed.

Lemma digits2_pos_bounds (p : positive) :
  2 ^ Zpos (digits2_pos p) <= 2 * Zpos p /\ Zpos p < 2 ^ Zpos (digits2_pos p).
Proof.
  rewrite digits2_pos_size. split.
  - pose proof (Pos.size_le p) as H.
    apply Pos2Z.pos_le_pos in H. rewrite Pos2Z.inj_pow in H.
    now rewrite Pos2Z.inj_xO in H.
  - pose proof (Pos.size_gt p) as H.
    apply Pos2Z.pos_lt_pos in H. now rewrite Pos2Z.inj_pow in H.
Qed.

Lemma digits2_pos_monotone (p q : positive) :
  Zpos p <= Zpos q -> Zpos (digits2_pos p) <= Zpos (digits2_pos q).
Proof.
  intros Hpq.
  destruct (Z.le_gt_cases (Zpos (digits2_pos p)) (Zpos (digits2_pos q)))
    as [|Hgt]; [assumption|exfalso].
  destruct (digits2_pos_bounds p) as [Hp _].
  destruct (digits2_pos_bounds q) as [_ Hq].
  assert (2 ^ (Zpos (digits2_pos q) + 1) <= 2 ^ Zpos (digits2_pos p))
    by (apply Z.pow_le_mono_r; lia).
  rewrite Z.pow_add_r in * by lia. lia.
Qed.

Lemma iter_xO_value (p s : positive) :
  Zpos (Pos.iter xO p s) = Zpos p * 2 ^ Zpos s.
Proof.
  induction s as [|s IH] using Pos.peano_ind.
  - cbn. lia.
  - rewrite Pos.iter_succ, Pos2Z.inj_xO, IH, Pos2Z.inj_succ, Z.pow_succ_r by lia.
    lia.
Qed.

Lemma iter_xO_digits (p s : positive) :
  digits2_pos (Pos.iter xO p s) = (digits2_pos p + s)%positive.
Proof.
  induction s as [|s IH] using Pos.peano_ind.
  - cbn. lia.
  - rewrite Pos.iter_succ. cbn [digits2_pos]. rewrite IH. lia.
Qed.

Lemma binary_round_aux_canonical (m : positive) (e : Z) :
  Zpos (digits2_pos m) = 53 -> -1074 <= e <= 971 ->
  binary_round_aux prec emax false (Zpos m) e loc_Exact
  = S754_finite false m e.
Proof.
  intros Hd He.
  assert (Hshift : fexp prec emax (Zdigits2 (Zpos m) + e) - e = 0).
  { cbn [Zdigits2]. rewrite Hd. unfold fexp, emin, prec, emax. lia. }
  unfold binary_round_aux, shr_fexp.
  cbn [shr_record_of_loc]. rewrite Hshift. cbn [shr].
  cbn [shr_m loc_of_shr_record round_nearest_even shr_record_of_loc].
  rewrite Hshift. cbn [shr shr_m].
  destruct (Z.leb_spec e (emax - prec)) as [|Hbig]; [reflexivity|].
  unfold emax, prec in Hbig. lia.
Qed.

Lemma digits2_pos_unique (m : positive) (d : Z) :
  2 ^ (d - 1) <= Zpos m < 2 ^ d -> Zpos (digits2_pos m) = d.
Proof.
  intros [Hlo Hhi].
  destruct (digits2_pos_bounds m) as [Hlo' Hhi'].
  assert (0 < d).
  { destruct (Z.lt_ge_cases 0 d) as [|Hd]; [assumption|exfalso].
    destruct (Z.eq_dec d 0) as [->|]; [cbn in Hhi; lia|].
    rewrite (Z.pow_neg_r 2 d) in Hhi by lia. lia. }
  destruct (Z.lt_trichotomy (Zpos (digits2_pos m)) d) as [Hlt|[Heq|Hgt]];
    [exfalso|exact Heq|exfalso].
  - assert (2 ^ Zpos (digits2_pos m) <= 2 ^ (d - 1))
      by (apply Z.pow_le_mono_r; lia).
    lia.
  - assert (2 ^ (d + 1) <= 2 ^ Zpos (digits2_pos m))
      by (apply Z.pow_le_mono_r; lia).
    rewrite Z.pow_add_r in * by lia. lia.
Qed.

Lemma digits2_pos_small (p : positive) :
  Zpos p < 2 ^ 53 -> Zpos (digits2_pos p) <= 53.
Proof.
  intros Hp. destruct (digits2_pos_bounds p) as [Hlo _].
  destruct (Z.le_gt_cases (Zpos (digits2_pos p)) 53) as [|Hgt];
    [assumption|exfalso].
  assert (2 ^ 54 <= 2 ^ Zpos (digits2_pos p))
    by (apply Z.pow_le_mono_r; lia).
  lia.
Qed.

Lemma iter_pos_shr_1 (s : positive) :
  forall m : positive,
    iter_pos shr_1 s
      {| shr_m := Zpos (Pos.iter xO m s); shr_r := false; shr_s := false |}
    = {| shr_m := Zpos m; shr_r := false; shr_s := false |}.
Proof.
  induction s as [s IH|s IH|]; intros m; cbn [iter_pos Pos.iter].
  - cbn [shr_1 orb]. now rewrite !IH.
  - now rewrite !IH.
  - reflexivity.
Qed.

(** Rounding a mantissa that is a 53-bit one shifted up by [n] bits only
    undoes the shift. *)
Lemma binary_round_aux_exact (M m : positive) (n e : Z) :
  0 <= n -> Zpos M = Zpos m * 2 ^ n ->
  Zpos (digits2_pos m) = 53 -> -1074 <= e + n <= 971 ->
  binary_round_aux prec emax false (Zpos M) e loc_Exact
  = S754_finite false m (e + n).
Proof.
  intros Hn HM Hd He.
  destruct n as [|s|s]; [| |lia].
  - assert (M = m) as -> by lia.
    rewrite Z.add_0_r in *. now apply binary_round_aux_canonical.
  - assert (M = Pos.iter xO m s) as ->.
    { apply Pos2Z.inj. now rewrite iter_xO_value. }
    assert (Hshift : fexp prec emax (Zdigits2 (Zpos (Pos.iter xO m s)) + e) - e
                     = Zpos s).
    { cbn [Zdigits2]. rewrite iter_xO_digits, Pos2Z.inj_add, Hd.
      unfold fexp, emin, prec, emax. lia. }
    assert (Hstay : fexp prec emax (Zdigits2 (Zpos m) + (e + Zpos s))
                    - (e + Zpos s) = 0).
    { cbn [Zdigits2]. rewrite Hd. unfold fexp, emin, prec, emax. lia. }
    unfold binary_round_aux, shr_fexp.
    cbn [shr_record_of_loc]. rewrite Hshift. cbn [shr].
    rewrite iter_pos_shr_1.
    cbn [shr_m loc_of_shr_record round_nearest_even shr_record_of_loc].
    rewrite Hstay. cbn [shr shr_m].
    destruct (Z.leb_spec (e + Zpos s) (emax - prec)) as [|Hbig];
      [reflexivity|].
    unfold emax, prec in Hbig. lia.
Qed.

(** A positive integer below 2^53 as a double: the mantissa shifted up to
    53 bits, with the exponent that undoes the shift. *)
Lemma binary_normalize_pos (p : positive) :
  Zpos p < 2 ^ 53 ->
  exists m,
    binary_normalize prec emax (Zpos p) 0 false
    = S754_finite false m (Zpos (digits2_pos p) - 53) /\
    Zpos m = Zpos p * 2 ^ (53 - Zpos (digits2_pos p)) /\
    Zpos (digits2_pos m) = 53.
Proof.
  intros Hp.
  pose proof (digits2_pos_small p Hp) as Hd.
  unfold binary_normalize, binary_round, shl_align.
  assert (Hf : fexp prec emax (Zpos (digits2_pos p) + 0)
               = Zpos (digits2_pos p) - 53).
  { unfold fexp, emin, prec, emax. lia. }
  rewrite Hf, Z.sub_0_r.
  destruct (Zpos (digits2_pos p) - 53) as [|s|s] eqn:Es; [|lia|].
  - exists p. split; [|split].
    + apply binary_round_aux_canonical; lia.
    + replace (53 - Zpos (digits2_pos p)) with 0 by lia. lia.
    + lia.
  - assert (Hds : Zpos (digits2_pos (Pos.iter xO p s)) = 53)
      by (rewrite iter_xO_digits; lia).
    exists (Pos.iter xO p s). split; [|split].
    + rewrite <- Es. apply binary_round_aux_canonical; [exact Hds|lia].
    + rewrite iter_xO_value. f_equal. f_equal. lia.
    + exact Hds.
Qed.

Lemma Prim2SF_float_of_nat (n : nat) :
  Z.of_nat n < 2 ^ 53 ->
  Prim2SF (float_of_nat n)
  = binary_normalize prec emax (Z.of_nat n) 0 false.
Proof.
  intros Hn. unfold float_of_nat, float_of_Z.
  destruct (Z.ltb_spec (Z.of_nat n) 0) as [|_]; [lia|].
  rewrite of_uint63_spec, Uint63.of_Z_spec.
  rewrite Z.mod_small; [reflexivity|].
  change Uint63.wB with (2 ^ 63). split; [lia|].
  assert (2 ^ 53 < 2 ^ 63) by reflexivity. lia.
Qed.

(** Below 2^53 the conversion keeps the order. *)
Lemma float_of_nat_lt (i k : nat) :
  (i < k)%nat -> Z.of_nat k < 2 ^ 53 ->
  PrimFloat.ltb (float_of_nat i) (float_of_nat k) = true.
Proof.
  intros Hik Hk.
  rewrite ltb_spec, !Prim2SF_float_of_nat by lia.
  destruct (Z.of_nat k) as [|q|q] eqn:Ek; [lia| |lia].
  destruct (binary_normalize_pos q Hk) as (mq & -> & Hmq & _).
  destruct (Z.of_nat i) as [|p|p] eqn:Ei; [reflexivity| |lia].
  assert (Hpq : Zpos p < Zpos q) by lia.
  destruct (binary_normalize_pos p) as (mp & -> & Hmp & _); [lia|].
  unfold SFltb, SFcompare.
  pose proof (digits2_pos_monotone p q) as Hd.
  destruct (Z.compare_spec (Zpos (digits2_pos p) - 53)
                           (Zpos (digits2_pos q) - 53)) as [He| |]; [|reflexivity|lia].
  assert (Hlt : Zpos mp < Zpos mq).
  { rewrite Hmp, Hmq.
    replace (Zpos (digits2_pos q)) with (Zpos (digits2_pos p)) by lia.
    apply Z.mul_lt_mono_pos_r; [|lia].
    apply Z.pow_pos_nonneg; [lia|].
    destruct (digits2_pos_bounds p) as [Hlo _].
    destruct (Z.le_gt_cases (Zpos (digits2_pos p)) 53) as [|Hgt]; [lia|].
    assert (2 ^ 54 <= 2 ^ Zpos (digits2_pos p))
      by (apply Z.pow_le_mono_r; lia).
    lia. }
  assert (Hc : (mp ?= mq)%positive = Lt) by (apply Pos.compare_lt_iff; lia).
  unfold Pos.compare in Hc. now rewrite Hc.
Qed.

(** The product of two integers is exact when it stays below 2^53. *)
Lemma SFmul_exact (p q : positive) :
  Zpos (p * q) < 2 ^ 53 ->
  SFmul prec emax (binary_normalize prec emax (Zpos p) 0 false)
                  (binary_normalize prec emax (Zpos q) 0 false)
  = binary_normalize prec emax (Zpos (p * q)) 0 false.
Proof.
  intros Hpq. rewrite Pos2Z.inj_mul in Hpq.
  assert (Hp : Zpos p < 2 ^ 53) by nia.
  assert (Hq : Zpos q < 2 ^ 53) by nia.
  destruct (binary_normalize_pos p Hp) as (mp & -> & Hmp & Hdp).
  destruct (binary_normalize_pos q Hq) as (mq & -> & Hmq & Hdq).
  destruct (binary_normalize_pos (p * q)) as (mu & -> & Hmu & Hdu);
    [rewrite Pos2Z.inj_mul; exact Hpq|].
  pose proof (digits2_pos_small p Hp) as Hsp.
  pose proof (digits2_pos_small q Hq) as Hsq.
  assert (Hsu : Zpos (digits2_pos (p * q)) <= 53)
    by (apply digits2_pos_small; rewrite Pos2Z.inj_mul; exact Hpq).
  destruct (digits2_pos_bounds p) as [Hlp Hhp].
  destruct (digits2_pos_bounds q) as [Hlq Hhq].
  destruct (digits2_pos_bounds (p * q)) as [Hlu Hhu].
  set (dp := Zpos (digits2_pos p)) in *.
  set (dq := Zpos (digits2_pos q)) in *.
  set (du := Zpos (digits2_pos (p * q))) in *.
  assert (0 < dp) by (unfold dp; lia).
  assert (0 < dq) by (unfold dq; lia).
  assert (0 < du) by (unfold du; lia).
  rewrite Pos2Z.inj_mul in Hmu, Hlu, Hhu.
  (* the product has at least dp + dq - 1 digits *)
  assert (Hdig : dp + dq - 1 <= du).
  { destruct (Z.le_gt_cases (dp + dq - 1) du) as [|Hgt];
      [assumption|exfalso].
    assert (2 ^ du <= 2 ^ (dp + dq - 2)) by (apply Z.pow_le_mono_r; lia).
    assert (Hprod : 2 ^ dp * 2 ^ dq <= (2 * Zpos p) * (2 * Zpos q))
      by (apply Z.mul_le_mono_nonneg; lia).
    rewrite <- Z.pow_add_r in Hprod by lia.
    replace (dp + dq) with (dp + dq - 2 + 2) in Hprod by lia.
    rewrite Z.pow_add_r in Hprod by lia.
    change (2 ^ 2) with 4 in Hprod. lia. }
  cbn [SFmul xorb].
  replace (du - 53) with ((dp - 53 + (dq - 53)) + (53 + du - dp - dq)) by lia.
  apply binary_round_aux_exact; [lia| |exact Hdu|lia].
  rewrite Pos2Z.inj_mul, Hmp, Hmq, Hmu.
  replace (Zpos p * 2 ^ (53 - dp) * (Zpos q * 2 ^ (53 - dq)))
    with (Zpos p * Zpos q * (2 ^ (53 - dp) * 2 ^ (53 - dq))) by ring.
  replace (Zpos p * Zpos q * 2 ^ (53 - du) * 2 ^ (53 + du - dp - dq))
    with (Zpos p * Zpos q * (2 ^ (53 - du) * 2 ^ (53 + du - dp - dq)))
    by ring.
  rewrite <- !Z.pow_add_r by lia.
  f_equal. f_equal. lia.
Qed.

Lemma float_of_nat_mul (v w : nat) :
  Z.of_nat v < 2 ^ 53 -> Z.of_nat w < 2 ^ 53 ->
  Z.of_nat (v * w) < 2 ^ 53 ->
  PrimFloat.mul (float_of_nat v) (float_of_nat w) = float_of_nat (v * w).
Proof.
  intros Hv Hw Hvw. apply Prim2SF_inj.
  rewrite mul_spec, !Prim2SF_float_of_nat by assumption.
  rewrite Nat2Z.inj_mul in *. unfold SF64mul.
  destruct (Z.of_nat v) as [|p|p] eqn:Ev; [| |lia].
  - rewrite Z.mul_0_l.
    change (binary_normalize prec emax 0 0 false) with (S754_zero false).
    destruct (Z.of_nat w) as [|q|q] eqn:Ew; [reflexivity| |lia].
    destruct (binary_normalize_pos q Hw) as (m & -> & _). reflexivity.
  - destruct (Z.of_nat w) as [|q|q] eqn:Ew; [| |lia].
    + rewrite Z.mul_0_r.
      change (binary_normalize prec emax 0 0 false) with (S754_zero false).
      destruct (binary_normalize_pos p Hv) as (m & -> & _). reflexivity.
    + change (Zpos p * Zpos q) with (Zpos (p * q)) in *.
      now apply SFmul_exact.
Qed.

(** ** Rounding a quotient *)

Lemma shr_fexp_53 (Q : positive) (e : Z) (l : location) :
  Zpos (digits2_pos Q) = 53 -> -1074 <= e ->
  shr_fexp prec emax (Zpos Q) e l = (shr_record_of_loc (Zpos Q) l, e).
Proof.
  intros Hd He. unfold shr_fexp.
  replace (fexp prec emax (Zdigits2 (Zpos Q) + e) - e) with 0; [reflexivity|].
  cbn [Zdigits2]. rewrite Hd. unfold fexp, emin, prec, emax. lia.
Qed.

Lemma shr_fexp_54 (Q : positive) (e : Z) (l : location) :
  Zpos (digits2_pos Q) = 54 -> -1074 <= e + 1 ->
  shr_fexp prec emax (Zpos Q) e l
  = (shr_1 (shr_record_of_loc (Zpos Q) l), e + 1).
Proof.
  intros Hd He. unfold shr_fexp.
  replace (fexp prec emax (Zdigits2 (Zpos Q) + e) - e) with 1; [reflexivity|].
  cbn [Zdigits2]. rewrite Hd. unfold fexp, emin, prec, emax. lia.
Qed.

(** The second half of the rounding: a rounded mantissa of 53 bits is kept,
    2^53 is renormalised. *)
Lemma round_finish (mr : positive) (e : Z) :
  2 ^ 52 <= Zpos mr <= 2 ^ 53 -> -1074 <= e <= 970 ->
  (let '(mrs, e') := shr_fexp prec emax (Zpos mr) e loc_Exact in
   match shr_m mrs with
   | 0 => S754_zero false
   | Zpos m =>
       if e' <=? emax - prec then S754_finite false m e'
       else S754_infinity false
   | Zneg _ => S754_nan
   end)
  = if Zpos mr <? 2 ^ 53 then S754_finite false mr e
    else S754_finite false (2 ^ 52)%positive (e + 1).
Proof.
  intros Hmr He.
  destruct (Z.ltb_spec (Zpos mr) (2 ^ 53)) as [Hlt|Hge].
  - rewrite shr_fexp_53; [|apply digits2_pos_unique; lia|lia].
    cbn [shr_record_of_loc shr_m].
    destruct (Z.leb_spec e (emax - prec)) as [|Hbig]; [reflexivity|].
    unfold emax, prec in Hbig. lia.
  - assert (mr = (2 ^ 53)%positive) as -> by lia.
    rewrite shr_fexp_54; [|reflexivity|lia].
    cbn [shr_record_of_loc shr_1 shr_m].
    change (shr_m (shr_1 {| shr_m := Zpos (2 ^ 53); shr_r := false;
                            shr_s := false |}))
      with (Zpos (2 ^ 52)).
    destruct (Z.leb_spec (e + 1) (emax - prec)) as [|Hbig]; [reflexivity|].
    unfold emax, prec in Hbig. lia.
Qed.

Lemma binary_round_aux_53 (Q : positive) (e : Z) (l : location) :
  Zpos (digits2_pos Q) = 53 -> -1074 <= e <= 970 ->
  exists mr,
    (mr = Zpos Q \/
     (mr = Zpos Q + 1 /\ (l = loc_Inexact Eq \/ l = loc_Inexact Gt))) /\
    binary_round_aux prec emax false (Zpos Q) e l = rounded mr e.
Proof.
  intros Hd He.
  destruct (digits2_pos_bounds Q) as [Hlo Hhi]. rewrite Hd in Hlo, Hhi.
  change (2 ^ 53) with (2 * 2 ^ 52) in Hlo.
  unfold binary_round_aux. rewrite shr_fexp_53 by (assumption || lia).
  assert (Hm : shr_m (shr_record_of_loc (Zpos Q) l) = Zpos Q)
    by (destruct l as [|[| |]]; reflexivity).
  assert (Hl : loc_of_shr_record (shr_record_of_loc (Zpos Q) l) = l)
    by (destruct l as [|[| |]]; reflexivity).
  rewrite Hm, Hl.
  assert (Hcases :
            round_nearest_even (Zpos Q) l = Zpos Q \/
            (round_nearest_even (Zpos Q) l = Zpos (Q + 1) /\
             (l = loc_Inexact Eq \/ l = loc_Inexact Gt))).
  { destruct l as [|[| |]]; cbn [round_nearest_even]; auto.
    destruct (Z.even (Zpos Q)); auto. }
  destruct Hcases as [->|[-> Hup]].
  - exists (Zpos Q). split; [now left|].
    rewrite round_finish by lia. reflexivity.
  - exists (Zpos Q + 1). split; [right; split; [reflexivity|exact Hup]|].
    rewrite round_finish by lia. unfold rounded.
    change (Zpos Q + 1) with (Zpos (Q + 1)). reflexivity.
Qed.

Lemma binary_round_aux_54 (Q : positive) (e : Z) (l : location) :
  Zpos (digits2_pos Q) = 54 -> -1074 <= e + 1 <= 970 ->
  exists mr,
    (mr = Zpos Q / 2 \/ (mr = Zpos Q / 2 + 1 /\ Z.odd (Zpos Q) = true)) /\
    binary_round_aux prec emax false (Zpos Q) e l = rounded mr (e + 1).
Proof.
  intros Hd He.
  destruct (digits2_pos_bounds Q) as [Hlo Hhi]. rewrite Hd in Hlo, Hhi.
  change (2 ^ 54) with (2 * 2 ^ 53) in Hlo.
  change (2 ^ 54) with (2 * 2 ^ 53) in Hhi.
  unfold binary_round_aux. rewrite shr_fexp_54 by (assumption || lia).
  destruct Q as [T|T|]; [| |cbn in Hd; discriminate].
  - (* odd *)
    assert (Hhalf : Zpos T~1 / 2 = Zpos T).
    { rewrite Pos2Z.inj_xI. symmetry.
      apply (Z.div_unique _ _ _ 1); lia. }
    rewrite Hhalf.
    assert (Hcases :
      let mrs := shr_1 (shr_record_of_loc (Zpos T~1) l) in
      round_nearest_even (shr_m mrs) (loc_of_shr_record mrs) = Zpos T \/
      round_nearest_even (shr_m mrs) (loc_of_shr_record mrs) = Zpos (T + 1)).
    { destruct l as [|[| |]]; cbn; auto. destruct T; cbn; auto. }
    cbv zeta in Hcases. destruct Hcases as [->| ->].
    + exists (Zpos T). split; [now left|].
      rewrite round_finish by lia. reflexivity.
    + exists (Zpos T + 1). split; [right; split; reflexivity|].
      rewrite round_finish by lia. unfold rounded.
      change (Zpos T + 1) with (Zpos (T + 1)). reflexivity.
  - (* even *)
    assert (Hhalf : Zpos T~0 / 2 = Zpos T).
    { rewrite Pos2Z.inj_xO. symmetry.
      apply (Z.div_unique _ _ _ 0); lia. }
    rewrite Hhalf.
    assert (Hdown :
      let mrs := shr_1 (shr_record_of_loc (Zpos T~0) l) in
      round_nearest_even (shr_m mrs) (loc_of_shr_record mrs) = Zpos T).
    { destruct l as [|[| |]]; reflexivity. }
    cbv zeta in Hdown. rewrite Hdown.
    exists (Zpos T). split; [now left|].
    rewrite round_finish by lia. reflexivity.
Qed.

(** ** Dividing two integers and taking the floor *)

(** The arithmetic of the quotient: [Q] is the quotient of the mantissas,
    [n] the number of bits it has above 53, [mr] what is left of it after
    rounding to 53 bits.  Rounding never reaches the next integer. *)
Lemma quotient_floor (a b da db Q n mr : Z) :
  0 < a -> 0 < b ->
  2 ^ da <= 2 * a -> a < 2 ^ da -> 0 < da <= 53 ->
  2 ^ db <= 2 * b -> b < 2 ^ db -> 0 < db <= 53 ->
  Q = (a * 2 ^ (53 - da) * 2 ^ 53) / (b * 2 ^ (53 - db)) ->
  0 <= n <= 1 -> (n = 0 <-> Q < 2 ^ 53) ->
  Q / 2 ^ n <= mr -> mr * 2 ^ n <= Q + 1 ->
  2 ^ 52 <= Q < 2 ^ 54 /\
  2 ^ 52 <= mr <= 2 ^ 53 /\
  mr / 2 ^ (53 - da + db - n) = a / b.
Proof.
  intros Ha Hb Hla Hha Hda Hlb Hhb Hdb HQ Hn Hn0 Hlo Hhi.
  set (K := 53 - da + db) in *.
  assert (HK : 1 <= K) by (unfold K; lia).
  assert (Hpk : 2 ^ K * 2 ^ da = 2 ^ 53 * 2 ^ db).
  { rewrite <- !Z.pow_add_r by lia. f_equal. unfold K. lia. }
  assert (Hnum : a * 2 ^ (53 - da) * 2 ^ 53 = a * 2 ^ K * 2 ^ (53 - db)).
  { rewrite <- !Z.mul_assoc, <- !Z.pow_add_r by lia.
    f_equal. f_equal. unfold K. lia. }
  assert (HposK : 0 < 2 ^ K) by (apply Z.pow_pos_nonneg; lia).
  assert (HposB : 0 < 2 ^ (53 - db)) by (apply Z.pow_pos_nonneg; lia).
  assert (Hposa : 0 < 2 ^ da) by (apply Z.pow_pos_nonneg; lia).
  assert (Hposb : 0 < 2 ^ db) by (apply Z.pow_pos_nonneg; lia).
  rewrite Hnum, Z.div_mul_cancel_r in HQ by lia.
  pose proof (Z.div_mod (a * 2 ^ K) b ltac:(lia)) as Hdiv.
  pose proof (Z.mod_pos_bound (a * 2 ^ K) b Hb) as Hrem.
  rewrite <- HQ in Hdiv.
  set (R := (a * 2 ^ K) mod b) in *.
  set (PK := 2 ^ K) in *. set (pa := 2 ^ da) in *. set (pb := 2 ^ db) in *.
  change (2 ^ 53) with 9007199254740992 in *.
  change (2 ^ 52) with 4503599627370496 in *.
  change (2 ^ 54) with 18014398509481984 in *.
  (* the quotient has 53 or 54 bits *)
  assert (HQlo : 4503599627370496 <= Q) by nia.
  assert (HQhi : Q < 18014398509481984) by nia.
  split; [lia|].
  (* floor of the exact quotient *)
  assert (HF : Q / PK = a / b).
  { rewrite HQ. unfold PK. rewrite Z.div_div by lia.
    now rewrite Z.div_mul_cancel_r by lia. }
  assert (HN : 2 ^ n * 2 ^ (K - n) = PK).
  { unfold PK. rewrite <- Z.pow_add_r by lia. f_equal. lia. }
  assert (HposN : 0 < 2 ^ (K - n)) by (apply Z.pow_pos_nonneg; lia).
  assert (Hposn : 0 < 2 ^ n) by (apply Z.pow_pos_nonneg; lia).
  assert (HT : Q / 2 ^ n / 2 ^ (K - n) = a / b).
  { rewrite Z.div_div by lia. now rewrite HN. }
  pose proof (Z.div_mod a b ltac:(lia)) as HdivF.
  pose proof (Z.mod_pos_bound a b Hb) as HremF.
  set (F := a / b) in *. set (r0 := a mod b) in *.
  pose proof (Z.mul_div_le (Q / 2 ^ n) (2 ^ (K - n)) HposN) as HTlo.
  rewrite HT in HTlo.
  assert (Hn2 : 2 ^ n = 1 /\ Q < 9007199254740992 \/
                2 ^ n = 2 /\ 9007199254740992 <= Q).
  { destruct (Z.eq_dec n 0) as [->|Hn1].
    - left. split; [reflexivity|]. now apply Hn0.
    - right. assert (n = 1) as -> by lia. split; [reflexivity|].
      destruct (Z.lt_ge_cases Q 9007199254740992) as [Hlt|]; [|assumption].
      apply Hn0 in Hlt. lia. }
  assert (HTdiv : Q / 2 ^ n * 2 ^ n <= Q /\ Q < (Q / 2 ^ n + 1) * 2 ^ n).
  { pose proof (Z.div_mod Q (2 ^ n) ltac:(lia)).
    pose proof (Z.mod_pos_bound Q (2 ^ n) Hposn). nia. }
  split.
  - destruct Hn2 as [[Hp HQs]|[Hp HQs]]; rewrite Hp in *; lia.
  - symmetry. apply (Z.div_unique_pos _ _ _ (mr - 2 ^ (K - n) * F)); [|lia].
    split; [lia|].
    (* rounding up does not reach the next integer *)
    destruct (Z.lt_ge_cases mr (2 ^ (K - n) * (F + 1))) as [|Hover]; [lia|].
    exfalso.
    assert (Hup : (F + 1) * PK <= Q + 1).
    { rewrite <- HN. nia. }
    assert (PK <= b) by nia.
    assert (pb <= PK).
    { unfold pb, PK. apply Z.pow_le_mono_r; unfold K; lia. }
    lia.
Qed.

Lemma Prim2SF_float_of_Z (z : Z) :
  0 <= z < 2 ^ 53 ->
  Prim2SF (float_of_Z z) = binary_normalize prec emax z 0 false.
Proof.
  intros Hz. unfold float_of_Z.
  destruct (Z.ltb_spec z 0) as [|_]; [lia|].
  rewrite of_uint63_spec, Uint63.of_Z_spec.
  rewrite Z.mod_small; [reflexivity|].
  change Uint63.wB with (2 ^ 63). split; [lia|].
  assert (2 ^ 53 < 2 ^ 63) by reflexivity. lia.
Qed.

Lemma SFdiv_core_normal (ma mb : positive) (ea eb : Z) :
  Zpos (digits2_pos ma) = 53 -> Zpos (digits2_pos mb) = 53 ->
  -52 <= ea <= 0 -> -52 <= eb <= 0 ->
  SFdiv_core_binary prec emax (Zpos ma) ea (Zpos mb) eb
  = ((Zpos ma * 2 ^ 53) / Zpos mb, ea - eb - 53,
     new_location (Zpos mb) ((Zpos ma * 2 ^ 53) mod Zpos mb)).
Proof.
  intros Hda Hdb Hea Heb.
  unfold SFdiv_core_binary. cbn [Zdigits2]. rewrite Hda, Hdb. cbv zeta.
  assert (He : Z.min (fexp prec emax (53 + ea - (53 + eb))) (ea - eb)
               = ea - eb - 53).
  { unfold fexp, emin, prec, emax. lia. }
  rewrite He.
  replace (ea - eb - (ea - eb - 53)) with 53 by lia.
  rewrite Z.shiftl_mul_pow2 by lia.
  unfold Z.div, Z.modulo.
  destruct (Z.div_eucl (Zpos ma * 2 ^ 53) (Zpos mb)) as [Q R].
  reflexivity.
Qed.

(** What [Math.floor] makes of a rounded quotient. *)
Lemma Math_floor_rounded (x : float) (mr E F : Z) :
  Prim2SF x = rounded mr E ->
  2 ^ 52 <= mr <= 2 ^ 53 -> E <= 0 ->
  mr / 2 ^ (- E) = F -> F < 2 ^ 53 ->
  Math_floor x = float_of_Z F.
Proof.
  intros Hx Hmr HE HF Hsmall. unfold rounded in Hx.
  destruct (Z.ltb_spec mr (2 ^ 53)) as [Hlt|Hge].
  - destruct mr as [|p|p]; [lia| |lia]. cbn [Z.to_pos] in Hx.
    unfold Math_floor. rewrite Hx.
    destruct (Z.leb_spec 0 E) as [HE0|HEneg].
    + assert (E = 0) as -> by lia. cbn in HF. rewrite Z.div_1_r in HF.
      subst F. apply Prim2SF_inj. rewrite Hx, Prim2SF_float_of_Z by lia.
      destruct (binary_normalize_pos p Hlt) as (m & -> & Hm & _).
      assert (Hd : Zpos (digits2_pos p) = 53)
        by (apply digits2_pos_unique; lia).
      rewrite Hd in *. cbn in Hm. f_equal; lia.
    + cbv zeta. now rewrite HF.
  - assert (mr = 2 ^ 53) as -> by lia.
    unfold Math_floor. rewrite Hx.
    destruct (Z.leb_spec 0 (E + 1)) as [HE0|HEneg].
    + destruct (Z.eq_dec E 0) as [->|HE1].
      * cbn in HF. lia.
      * assert (E = -1) as -> by lia.
        subst F. apply Prim2SF_inj. rewrite Hx. reflexivity.
    + cbv zeta. f_equal. rewrite <- HF.
      replace (- E) with (- (E + 1) + 1) by lia.
      rewrite Z.pow_add_r by lia.
      change (2 ^ 53) with (2 ^ 52 * 2 ^ 1).
      rewrite Z.div_mul_cancel_r; [reflexivity| |lia].
      apply Z.pow_nonzero; lia.
Qed.

(** [Math.floor(a / b)] on integers below 2^53 is the integer quotient. *)
Lemma float_of_nat_div_floor (a b : nat) :
  (1 <= b)%nat -> Z.of_nat a < 2 ^ 53 -> Z.of_nat b < 2 ^ 53 ->
  Math_floor (PrimFloat.div (float_of_nat a) (float_of_nat b))
  = float_of_nat (a / b).
Proof.
  intros Hb Ha53 Hb53.
  assert (Hquot : Z.of_nat (a / b) = Z.of_nat a / Z.of_nat b)
    by apply Nat2Z.inj_div.
  unfold float_of_nat at 3. rewrite Hquot.
  pose proof (div_spec (float_of_nat a) (float_of_nat b)) as Hx.
  rewrite !Prim2SF_float_of_nat in Hx by assumption.
  unfold SF64div in Hx.
  destruct (Z.of_nat b) as [|q|q] eqn:Eb; [lia| |lia].
  destruct (binary_normalize_pos q Hb53) as (mb & Hnb & Hmb & Hdmb).
  rewrite Hnb in Hx.
  destruct (Z.of_nat a) as [|p|p] eqn:Ea; [| |lia].
  - (* 0 / b *)
    cbn in Hx. unfold Math_floor. rewrite Hx.
    apply Prim2SF_inj. rewrite Hx. reflexivity.
  - destruct (binary_normalize_pos p Ha53) as (ma & Hna & Hma & Hdma).
    rewrite Hna in Hx.
    pose proof (digits2_pos_small p Ha53) as Hsa.
    pose proof (digits2_pos_small q Hb53) as Hsb.
    destruct (digits2_pos_bounds p) as [Hlp Hhp].
    destruct (digits2_pos_bounds q) as [Hlq Hhq].
    set (da := Zpos (digits2_pos p)) in *.
    set (db := Zpos (digits2_pos q)) in *.
    assert (0 < da) by (unfold da; lia).
    assert (0 < db) by (unfold db; lia).
    cbn [SFdiv xorb] in Hx.
    rewrite SFdiv_core_normal in Hx by (assumption || lia).
    set (Q := Zpos ma * 2 ^ 53 / Zpos mb) in *.
    set (l := new_location (Zpos mb) ((Zpos ma * 2 ^ 53) mod Zpos mb)) in *.
    assert (HQ : Q = Zpos p * 2 ^ (53 - da) * 2 ^ 53
                     / (Zpos q * 2 ^ (53 - db)))
      by (unfold Q; now rewrite Hma, Hmb).
    assert (HF53 : Zpos p / Zpos q < 2 ^ 53).
    { apply Z.div_lt_upper_bound; [lia|]. nia. }
    assert (HQr : 2 ^ 52 <= Q < 2 ^ 54).
    { apply (quotient_floor (Zpos p) (Zpos q) da db Q
               (if Q <? 2 ^ 53 then 0 else 1)
               (Q / 2 ^ (if Q <? 2 ^ 53 then 0 else 1)));
        try lia; try assumption.
      - destruct (Z.ltb_spec Q (2 ^ 53)); lia.
      - destruct (Z.ltb_spec Q (2 ^ 53)); lia.
      - assert (0 < 2 ^ (if Q <? 2 ^ 53 then 0 else 1))
          by (destruct (Q <? 2 ^ 53); reflexivity).
        pose proof (Z.mul_div_le Q _ H1). lia. }
    destruct Q as [|Qp|Qp] eqn:EQ; [lia| |lia].
    destruct (Z.ltb_spec (Zpos Qp) (2 ^ 53)) as [Hsmall|Hbig].
    + (* a quotient of 53 bits *)
      assert (HdQ : Zpos (digits2_pos Qp) = 53)
        by (apply digits2_pos_unique; lia).
      destruct (binary_round_aux_53 Qp (da - 53 - (db - 53) - 53) l HdQ)
        as (mr & Hmr & Hround); [lia|].
      rewrite Hround in Hx.
      destruct (quotient_floor (Zpos p) (Zpos q) da db (Zpos Qp) 0 mr)
        as (_ & Hmr53 & Hfloor);
        [lia|lia|assumption|assumption|lia|assumption|assumption|lia
        |assumption|lia|split; intros; lia
        |rewrite Z.div_1_r; lia|lia|].
      apply (Math_floor_rounded _ mr _ _ Hx Hmr53); [lia| |exact HF53].
      rewrite <- Hfloor. f_equal. f_equal. lia.
    + (* a quotient of 54 bits *)
      assert (HdQ : Zpos (digits2_pos Qp) = 54)
        by (apply digits2_pos_unique; lia).
      destruct (binary_round_aux_54 Qp (da - 53 - (db - 53) - 53) l HdQ)
        as (mr & Hmr & Hround); [lia|].
      rewrite Hround in Hx.
      pose proof (Z.div_mod (Zpos Qp) 2 ltac:(lia)) as Hhalf.
      pose proof (Zmod_odd (Zpos Qp)) as Hodd.
      pose proof (Z.mod_pos_bound (Zpos Qp) 2 ltac:(lia)) as Hbit.
      assert (Hmr2 : Zpos Qp / 2 <= mr /\ mr * 2 <= Zpos Qp + 1).
      { destruct Hmr as [->|[-> Ho]]; [lia|]. rewrite Ho in Hodd. lia. }
      destruct (quotient_floor (Zpos p) (Zpos q) da db (Zpos Qp) 1 mr)
        as (_ & Hmr53 & Hfloor);
        [lia|lia|assumption|assumption|lia|assumption|assumption|lia
        |assumption|lia|split; intros; lia
        |change (2 ^ 1) with 2; lia|change (2 ^ 1) with 2; lia|].
      apply (Math_floor_rounded _ mr _ _ Hx Hmr53); [lia| |exact HF53].
      rewrite <- Hfloor. f_equal. f_equal. lia.
Qed.

(** ** WindowFeatureExtractor: what the peak covers *)

Lemma peakOf_app (a b : list float) (p : float) :
  peakOf (a ++ b) p = peakOf b (peakOf a p).
Proof. unfold peakOf. apply fold_left_app. Qed.

Lemma sampleStep_peak (l : list float) :
  forall p sum, fst (fold_left sampleStep l (p, sum)) = peakOf l p.
Proof.
  induction l as [|x l IH]; intros p sum; [reflexivity|].
  cbn [fold_left peakOf]. unfold sampleStep at 2. cbn [fst snd].
  rewrite IH. reflexivity.
Qed.

Lemma windowStep_peak data ws st i :
  globalPeak (windowStep data ws st i)
  = peakOf (windowOf data ws i) (globalPeak st).
Proof. unfold windowStep. cbn [globalPeak]. apply sampleStep_peak. Qed.

Lemma windowStep_count data ws st i :
  List.length (windowRMSs (windowStep data ws st i))
  = S (List.length (windowRMSs st)).
Proof.
  unfold windowStep. cbn [windowRMSs]. rewrite length_app. cbn. lia.
Qed.

Lemma windowsOf_succ data ws n :
  List.concat (windowsOf data ws (S n))
  = List.concat (windowsOf data ws n) ++ windowOf data ws n.
Proof.
  unfold windowsOf. rewrite seq_S, map_app, concat_app. cbn.
  now rewrite app_nil_r.
Qed.

(** The loop invariant: after [i] windows the peak is the running maximum
    over exactly those windows. *)
Lemma windowLoop_peak data ws tw :
  forall fuel i st f,
    windowLoop fuel data ws tw i st = Returns f ->
    List.length (windowRMSs st) = i ->
    globalPeak st = peakOf (List.concat (windowsOf data ws i)) 0%float ->
    globalPeak f
    = peakOf (List.concat (windowsOf data ws (List.length (windowRMSs f))))
             0%float.
Proof.
  induction fuel as [|fuel IH]; intros i st f; cbn [windowLoop];
    destruct (PrimFloat.ltb (float_of_nat i) tw).
  - discriminate.
  - intros [= <-] Hn Hp. now rewrite Hn.
  - intros Hrun Hn Hp. apply (IH _ _ _ Hrun).
    + rewrite windowStep_count. now f_equal.
    + rewrite windowStep_peak, windowsOf_succ, peakOf_app, Hp. reflexivity.
  - intros [= <-] Hn Hp. now rewrite Hn.
Qed.

(** C4 (as stated) fails: a full-scale click right after the last whole
    window is part of the channel-0 signal, whose peak is 1, but the
    classifier works with a peak of 0.5; the 60 windows cover 24000 of the
    24002 samples, and the recording is accepted with score 100. *)
Lemma click_after_last_window_is_missed :
  exists f tw,
    getChannelData clickBuffer 0 = Returns clickSignal /\
    extract clickSignal (float_of_Z (sampleRate clickBuffer)) = Returns (f, tw) /\
    peak (statsOf f tw) = 0.5%float /\
    wholeSignalPeak clickSignal = 1%float /\
    peak (statsOf f tw) <> wholeSignalPeak clickSignal /\
    Z.of_nat (List.length clickSignal) = 24002 /\
    Z.of_nat (List.length (List.concat
       (windowsOf clickSignal 400%float (List.length (windowRMSs f)))))
    = 24000 /\
    analyzeAudioQuality clickBuffer = Returns (mkResult true None 100%float).
Proof.
  exists clickFeatures, 60%float.
  split; [reflexivity|]. split; [vm_compute; reflexivity|].
  split; [vm_compute; reflexivity|]. split; [vm_compute; reflexivity|].
  split; [vm_compute; discriminate|].
  split; [vm_compute; reflexivity|].
  split; vm_compute; reflexivity.
Qed.

(** The loop leaves at the first index that is not below [totalWindows]. *)
Lemma windowLoop_exit data ws tw :
  forall fuel i st f,
    windowLoop fuel data ws tw i st = Returns f ->
    List.length (windowRMSs st) = i ->
    (forall j, (j < i)%nat -> PrimFloat.ltb (float_of_nat j) tw = true) ->
    (forall j, (j < List.length (windowRMSs f))%nat ->
               PrimFloat.ltb (float_of_nat j) tw = true) /\
    PrimFloat.ltb (float_of_nat (List.length (windowRMSs f))) tw = false.
Proof.
  induction fuel as [|fuel IH]; intros i st f; cbn [windowLoop];
    destruct (PrimFloat.ltb (float_of_nat i) tw) eqn:Hi.
  - discriminate.
  - intros [= <-] Hn Hlt. rewrite Hn. split; assumption.
  - intros Hrun Hn Hlt. apply (IH _ _ _ Hrun).
    + rewrite windowStep_count. now f_equal.
    + intros j Hj. destruct (Nat.eq_dec j i) as [->|Hne];
        [assumption|apply Hlt; lia].
  - intros [= <-] Hn Hlt. rewrite Hn. split; assumption.
Qed.

(** When [totalWindows] is the integer [k], that index is [k]. *)
Lemma exit_index (n k : nat) (tw : float) :
  (forall j, (j < n)%nat -> PrimFloat.ltb (float_of_nat j) tw = true) ->
  PrimFloat.ltb (float_of_nat n) tw = false ->
  tw = float_of_nat k -> Z.of_nat k < 2 ^ 53 ->
  n = k.
Proof.
  intros Hbelow Hexit -> Hk.
  destruct (lt_eq_lt_dec n k) as [[Hlt|Heq]|Hgt]; [|exact Heq|].
  - rewrite (float_of_nat_lt n k Hlt Hk) in Hexit. discriminate.
  - pose proof (Hbelow k Hgt) as Hkk.
    rewrite ltb_irrefl in Hkk. discriminate.
Qed.

(** An integer index below 2^53 is taken as it is, clamped to the array. *)
Lemma relativeIndex_float_of_nat (len : Z) (u : nat) :
  Z.of_nat u < 2 ^ 53 -> 0 <= len ->
  relativeIndex len (float_of_nat u) = Z.to_nat (Z.min (Z.of_nat u) len).
Proof.
  intros Hu Hlen. unfold relativeIndex.
  rewrite Prim2SF_float_of_nat by assumption.
  destruct (Z.of_nat u) as [|p|p] eqn:Eu; [| |lia].
  - cbn [binary_normalize]. now rewrite Z.min_l by lia.
  - destruct (binary_normalize_pos p Hu) as (m & -> & Hm & _).
    pose proof (digits2_pos_small p Hu) as Hd.
    cbn [andb]. f_equal. f_equal.
    destruct (Z.leb_spec 0 (Zpos (digits2_pos p) - 53)) as [He|He].
    + assert (Hd53 : Zpos (digits2_pos p) = 53) by lia.
      rewrite Hd53 in Hm |- *. cbn in Hm |- *. lia.
    + rewrite Hm.
      replace (- (Zpos (digits2_pos p) - 53))
        with (53 - Zpos (digits2_pos p)) by lia.
      apply Z.div_mul. apply Z.pow_nonzero; lia.
Qed.

Lemma slice_float_of_nat (a : list float) (s e : nat) :
  (s <= e)%nat -> Z.of_nat e < 2 ^ 53 ->
  slice a (float_of_nat s) (float_of_nat e) = firstn (e - s) (skipn s a).
Proof.
  intros Hse He. unfold slice.
  rewrite !relativeIndex_float_of_nat by lia.
  rewrite <- !Nat2Z.inj_min, !Nat2Z.id.
  destruct (Nat.le_gt_cases s (List.length a)) as [Hs|Hs].
  - rewrite (Nat.min_l s) by lia.
    destruct (Nat.le_gt_cases e (List.length a)) as [Hel|Hel].
    + now rewrite Nat.min_l by lia.
    + rewrite Nat.min_r by lia.
      rewrite !firstn_all2; [reflexivity| |]; rewrite length_skipn; lia.
  - rewrite !Nat.min_r by lia.
    rewrite !skipn_all2 by lia. now rewrite !firstn_nil.
Qed.

(** Window [i] holds the [w] samples from index [i * w] on. *)
Lemma windowOf_samples (data : list float) (w i : nat) :
  (1 <= w)%nat -> Z.of_nat ((i + 1) * w) < 2 ^ 53 ->
  windowOf data (float_of_nat w) i = firstn w (skipn (i * w) data).
Proof.
  intros Hw Hi. unfold windowOf.
  assert (Z.of_nat (i + 1) <= Z.of_nat ((i + 1) * w)) by nia.
  assert (Z.of_nat w <= Z.of_nat ((i + 1) * w)) by nia.
  assert (Z.of_nat (i * w) <= Z.of_nat ((i + 1) * w)) by nia.
  rewrite !float_of_nat_mul by lia.
  rewrite slice_float_of_nat by lia.
  f_equal. lia.
Qed.

Lemma firstn_plus {A} (n m : nat) :
  forall l : list A, firstn (n + m) l = firstn n l ++ firstn m (skipn n l).
Proof.
  induction n as [|n IH]; intros [|x l]; cbn [Nat.add firstn skipn app];
    try reflexivity.
  - now rewrite firstn_nil.
  - now rewrite IH.
Qed.

(** The first [n] windows are the first [n * w] samples. *)
Lemma windowsOf_samples (data : list float) (w n : nat) :
  (1 <= w)%nat -> Z.of_nat (n * w) < 2 ^ 53 ->
  List.concat (windowsOf data (float_of_nat w) n) = firstn (n * w) data.
Proof.
  intros Hw. induction n as [|n IH]; intros Hn; [reflexivity|].
  rewrite windowsOf_succ, IH by nia.
  rewrite windowOf_samples by (try assumption; rewrite Nat.add_1_r; exact Hn).
  replace (S n * w)%nat with (n * w + w)%nat by lia.
  now rewrite firstn_plus.
Qed.

(** With [totalWindows] the integer [k] the loop ends, after [k] windows. *)
Lemma windowLoop_returns data ws (k : nat) :
  Z.of_nat k < 2 ^ 53 ->
  forall fuel i st,
    (i <= k)%nat -> (k - i <= fuel)%nat ->
    windowLoop fuel data ws (float_of_nat k) i st
    = Returns (fold_left (windowStep data ws) (seq i (k - i)) st).
Proof.
  intros Hk. induction fuel as [|fuel IH]; intros i st Hi Hfuel;
    cbn [windowLoop].
  - assert (i = k) as -> by lia.
    now rewrite ltb_irrefl, Nat.sub_diag.
  - destruct (Nat.eq_dec i k) as [->|Hne].
    + now rewrite ltb_irrefl, Nat.sub_diag.
    + rewrite float_of_nat_lt by lia.
      rewrite IH by lia.
      replace (k - i)%nat with (S (k - S i)) by lia. reflexivity.
Qed.

(** C4 (amended): the peak the classifier uses is the maximum absolute sample
    value over the windows of the feature series, that is over the samples of
    channel 0 that fall in a whole window; samples of a trailing partial
    window are not looked at.  For a window of [w] samples the loop ends
    after exactly floor(length / w) windows, which hold the first
    floor(length / w) * w samples and nothing else, and the peak is the
    maximum over these. *)
Theorem globalPeak_covers_the_windows
    (data : list float) (rate : float) (w : nat) :
  Math_floor (PrimFloat.mul rate windowSizeSec) = float_of_nat w ->
  (1 <= w)%nat ->
  Z.of_nat w < 2 ^ 53 ->
  Z.of_nat (List.length data) < 2 ^ 53 ->
  exists f,
    extract data rate = Returns (f, float_of_nat (List.length data / w)) /\
    List.length (windowRMSs f) = (List.length data / w)%nat /\
    List.concat
      (windowsOf data (Math_floor (PrimFloat.mul rate windowSizeSec))
                 (List.length (windowRMSs f)))
    = firstn (List.length data / w * w) data /\
    peak (statsOf f (float_of_nat (List.length data / w))) = globalPeak f /\
    globalPeak f
    = peakOf (firstn (List.length data / w * w) data) 0%float.
Proof.
  intros Hws Hw Hw53 Hlen.
  set (k := (List.length data / w)%nat).
  assert (Hk : (k * w <= List.length data)%nat).
  { unfold k. rewrite Nat.mul_comm. apply Nat.Div0.mul_div_le. }
  assert (Hkl : (k <= List.length data)%nat) by nia.
  unfold extract. rewrite Hws.
  rewrite float_of_nat_div_floor by assumption. fold k.
  rewrite (windowLoop_returns data (float_of_nat w) k) by lia.
  cbn [bind]. eexists. split; [reflexivity|].
  set (f := fold_left _ _ _).
  assert (Hloop : windowLoop (S (List.length data)) data (float_of_nat w)
                    (float_of_nat k) O (mkFeatures 0 0 [] []) = Returns f).
  { now rewrite (windowLoop_returns data (float_of_nat w) k) by lia. }
  destruct (windowLoop_exit _ _ _ _ _ _ _ Hloop eq_refl) as [Hbelow Hexit].
  { intros j Hj. cbn in Hj. lia. }
  assert (Hcount : List.length (windowRMSs f) = k).
  { apply (exit_index _ k _ Hbelow Hexit eq_refl). lia. }
  pose proof (windowLoop_peak _ _ _ _ _ _ _ Hloop eq_refl eq_refl) as Hpeak.
  assert (Hcover : List.concat (windowsOf data (float_of_nat w) k)
                   = firstn (k * w) data)
    by (apply windowsOf_samples; lia).
  rewrite Hcount in Hpeak |- *. rewrite Hcover in Hpeak.
  split; [reflexivity|]. split; [exact Hcover|].
  split; [reflexivity|exact Hpeak].
Qed.

Lemma globalPeak_covers_the_windows_witness :
  exists f,
    extract clickSignal 8000%float
    = Returns (f, float_of_nat (List.length clickSignal / 400)) /\
    List.length (windowRMSs f) = (List.length clickSignal / 400)%nat /\
    List.concat
      (windowsOf clickSignal
         (Math_floor (PrimFloat.mul 8000%float windowSizeSec))
         (List.length (windowRMSs f)))
    = firstn (List.length clickSignal / 400 * 400) clickSignal /\
    peak (statsOf f (float_of_nat (List.length clickSignal / 400)))
    = globalPeak f /\
    globalPeak f
    = peakOf (firstn (List.length clickSignal / 400 * 400) clickSignal)
             0%float.
Proof.
  apply (globalPeak_covers_the_windows clickSignal 8000%float 400).
  - vm_compute. reflexivity.
  - lia.
  - reflexivity.
  - vm_compute. reflexivity.
Defined.

(** ** QualityClassifier: the quiet ratio *)

Lemma rhythmStep_quiet rmss zcrs avg thr st i :
  quietWindows (rhythmStep rmss zcrs avg thr st i)
  = (quietWindows st
     + if PrimFloat.ltb (nth i rmss nan) thr then 1 else 0)%nat.
Proof.
  unfold rhythmStep. cbv zeta.
  destruct (PrimFloat.ltb thr (nth i rmss nan));
    destruct (PrimFloat.ltb (nth i rmss nan) thr);
    cbn [quietWindows currentPauseRun];
    try match goal with
        | |- context [(0 <? ?n)%nat] => destruct (0 <? n)%nat
        end;
    cbn [quietWindows]; lia.
Qed.

Lemma rhythmLoop_quiet rmss zcrs avg thr :
  forall idxs st,
    quietWindows (fold_left (rhythmStep rmss zcrs avg thr) idxs st)
    = (quietWindows st
       + quietCount thr (map (fun i => nth i rmss nan) idxs))%nat.
Proof.
  unfold quietCount.
  induction idxs as [|i idxs IH]; intros st; cbn [fold_left map filter].
  - cbn. lia.
  - rewrite IH, rhythmStep_quiet.
    destruct (PrimFloat.ltb (nth i rmss nan) thr); cbn [List.length]; lia.
Qed.

Lemma nth_seq_firstn {A} (d : A) (l : list A) :
  forall k, (k <= List.length l)%nat ->
    map (fun i => nth i l d) (seq O k) = firstn k l.
Proof.
  induction l as [|x l IH]; intros k Hk.
  - cbn in Hk. assert (k = O) by lia. now subst.
  - destruct k as [|k]; [reflexivity|].
    cbn [seq map nth firstn]. f_equal.
    rewrite <- seq_shift, map_map. cbn [nth].
    apply IH. cbn in Hk. lia.
Qed.

(** The indices 1 .. length - 2 visit the interior of the series. *)
Lemma interior_indices {A} (d : A) (l : list A) :
  map (fun i => nth i l d) (seq 1 (List.length l - 2)) = interior l.
Proof.
  unfold interior. destruct l as [|x l]; [reflexivity|].
  cbn [tl List.length]. rewrite <- seq_shift, map_map. cbn [nth].
  replace (S (List.length l) - 2)%nat with (List.length l - 1)%nat by lia.
  rewrite nth_seq_firstn by lia.
  rewrite removelast_firstn_len. f_equal. lia.
Qed.

(** C5 (as stated) fails: of the 60 windows of the burst signal 15 are quiet,
    the last one among them, but [quietRatio] is 14/60, not 15/60: the loop
    runs over the indices 1 .. length - 2 only. *)
Lemma last_window_is_not_counted :
  exists f tw,
    extract burstSignal (float_of_Z (sampleRate burstBuffer)) = Returns (f, tw) /\
    tw = 60%float /\
    Z.of_nat (List.length (windowRMSs f)) = 60 /\
    Z.of_nat (quietCount (dynamicThreshold (statsOf f tw)) (windowRMSs f)) = 15 /\
    quietRatio (statsOf f tw) = PrimFloat.div 14 60 /\
    quietRatio (statsOf f tw)
    <> PrimFloat.div
         (float_of_nat
            (quietCount (dynamicThreshold (statsOf f tw)) (windowRMSs f)))
         tw.
Proof.
  exists burstFeatures, 60%float.
  split; [vm_compute; reflexivity|]. split; [reflexivity|].
  split; [vm_compute; reflexivity|]. split; [vm_compute; reflexivity|].
  split; [vm_compute; reflexivity|]. vm_compute. discriminate.
Qed.

(** C5 (amended): [quietRatio] is the number of interior windows (every
    window except the first and the last) whose RMS is below
    dynamicThreshold = max(avgRMS * 0.4, 0.02), divided by the total window
    count. *)
Theorem quietRatio_counts_interior_windows (f : features) (tw : float) :
  let s := statsOf f tw in
  quietRatio s
  = PrimFloat.div
      (float_of_nat (quietCount (dynamicThreshold s) (interior (windowRMSs f))))
      tw /\
  dynamicThreshold s = fmax (PrimFloat.mul (avgRMS s) 0.4) 0.02 /\
  avgRMS s = PrimFloat.div (totalRMS f) tw.
Proof.
  cbv zeta. split; [|split; reflexivity].
  unfold statsOf. cbv zeta. cbn [quietRatio dynamicThreshold].
  unfold rhythmLoop. cbv zeta. cbn [quietWindows].
  rewrite rhythmLoop_quiet, interior_indices. reflexivity.
Qed.

(* ================================================================== *)
(** * Further properties of the codec *)

(** ** The quantiser *)

Lemma truncQ_unique_nonneg (q : Q) (t : Z) :
  (0 <= q)%Q -> (inject_Z t <= q)%Q -> (q < inject_Z t + 1)%Q -> truncQ q = t.
Proof.
  intros Hq Hlo Hhi. destruct (truncQ_nonneg q Hq) as [H1 H2].
  assert (Ha : (inject_Z (truncQ q) < inject_Z (t + 1))%Q)
    by (rewrite inject_Z_plus; change (inject_Z 1) with 1%Q; lra).
  assert (Hb : (inject_Z t < inject_Z (truncQ q + 1))%Q)
    by (rewrite inject_Z_plus; change (inject_Z 1) with 1%Q; lra).
  apply inject_Z_lt_inv in Ha, Hb. lia.
Qed.

Lemma truncQ_unique_nonpos (q : Q) (t : Z) :
  (q <= 0)%Q -> (q <= inject_Z t)%Q -> (inject_Z t - 1 < q)%Q -> truncQ q = t.
Proof.
  intros Hq Hlo Hhi. destruct (truncQ_nonpos q Hq) as [H1 H2].
  assert (Ha : (inject_Z (truncQ q) < inject_Z (t + 1))%Q)
    by (rewrite inject_Z_plus; change (inject_Z 1) with 1%Q; lra).
  assert (Hb : (inject_Z t < inject_Z (truncQ q + 1))%Q)
    by (rewrite inject_Z_plus; change (inject_Z 1) with 1%Q; lra).
  apply inject_Z_lt_inv in Ha, Hb. lia.
Qed.

Lemma truncQ_monotone (q1 q2 : Q) : (q1 <= q2)%Q -> truncQ q1 <= truncQ q2.
Proof.
  intros Hle.
  assert (Hint : forall a b : Z, (inject_Z a < inject_Z b + 1)%Q -> a <= b).
  { intros a b H.
    assert (H' : (inject_Z a < inject_Z (b + 1))%Q)
      by (rewrite inject_Z_plus; change (inject_Z 1) with 1%Q; lra).
    apply inject_Z_lt_inv in H'. lia. }
  destruct (Qlt_le_dec q1 0) as [Hn1|Hp1];
    destruct (Qlt_le_dec q2 0) as [Hn2|Hp2].
  - destruct (truncQ_nonpos q1) as [A1 B1]; [lra|].
    destruct (truncQ_nonpos q2) as [A2 B2]; [lra|].
    apply Hint. lra.
  - destruct (truncQ_nonpos q1) as [A1 B1]; [lra|].
    destruct (truncQ_nonneg q2 Hp2) as [A2 B2].
    assert (truncQ q1 <= 0)
      by (apply Hint; change (inject_Z 0) with 0%Q; lra).
    assert (0 <= truncQ q2)
      by (apply Hint; change (inject_Z 0) with 0%Q; lra).
    lia.
  - exfalso. lra.
  - destruct (truncQ_nonneg q1 Hp1) as [A1 B1].
    destruct (truncQ_nonneg q2 Hp2) as [A2 B2].
    apply Hint. lra.
Qed.

Lemma Qclamp_monotone (q1 q2 : Q) : (q1 <= q2)%Q -> (Qclamp q1 <= Qclamp q2)%Q.
Proof.
  intros Hle. unfold Qclamp.
  destruct (Qltb q1 1) eqn:A1; destruct (Qltb q2 1) eqn:A2;
    try apply Qltb_spec in A1; try apply Qltb_spec in A2;
    try apply Qltb_false in A1; try apply Qltb_false in A2;
    repeat match goal with
           | |- context [Qltb ?a ?b] =>
               let E := fresh "E" in
               destruct (Qltb a b) eqn:E;
               [apply Qltb_spec in E | apply Qltb_false in E]
           end; lra.
Qed.

Lemma scaleSample_range (x : number) : -32768 <= scaleSample x <= 32767.
Proof.
  destruct x as [q| | |];
    [|vm_compute; split; discriminate..].
  rewrite scaleSample_value.
  apply scaled_range, Qclamp_range.
Qed.

(** X1: whatever a channel holds - finite values, infinities, NaN, or nothing
    at that frame - the word computed for it is a 16-bit value, so [setInt16]
    never wraps and the word reads back unchanged. *)
Theorem scaleSample_is_int16 (x : number) :
  -32768 <= scaleSample x <= 32767 /\
  int16_words (le_bytes 2 (scaleSample x)) = [scaleSample x].
Proof.
  split; [apply scaleSample_range|].
  apply int16_words_le_bytes, scaleSample_range.
Qed.

(** X2: the quantiser is monotone: a larger sample never gets a smaller
    word, also across the change of scale at -0.5 and across clamping. *)
Theorem scaleSample_monotone (q1 q2 : Q) :
  (q1 <= q2)%Q -> scaleSample (Fin q1) <= scaleSample (Fin q2).
Proof.
  intros Hle. rewrite !scaleSample_value.
  apply truncQ_monotone.
  pose proof (Qclamp_monotone q1 q2 Hle) as Hc.
  pose proof (Qclamp_range q1) as R1. pose proof (Qclamp_range q2) as R2.
  unfold thresholdScale.
  destruct (Qltb (Qclamp q1) (-1 # 2)) eqn:E1;
    destruct (Qltb (Qclamp q2) (-1 # 2)) eqn:E2;
    try apply Qltb_spec in E1; try apply Qltb_spec in E2;
    try apply Qltb_false in E1; try apply Qltb_false in E2; lra.
Qed.

Lemma scaleSample_monotone_witness :
  scaleSample (Fin (-3 # 4)) <= scaleSample (Fin (-1 # 4)).
Proof.
  apply (scaleSample_monotone (-3 # 4) (-1 # 4)).
  vm_compute. discriminate.
Defined.

(** ** Decoding and encoding again *)

Lemma reencode_setup (w : Z) :
  -32768 <= w <= 32767 ->
  (Qclamp (inject_Z w / 32768) == inject_Z w * (1 # 32768))%Q /\
  (-32768 <= inject_Z w <= 32767)%Q.
Proof.
  intros [Hlo Hhi].
  assert (Hb : (-32768 <= inject_Z w <= 32767)%Q).
  { split; [change (-32768)%Q with (inject_Z (-32768))
           |change 32767%Q with (inject_Z 32767)];
      rewrite <- Zle_Qle; lia. }
  split; [|exact Hb].
  rewrite Qclamp_id.
  - reflexivity.
  - change (inject_Z w / 32768)%Q with (inject_Z w * (1 # 32768))%Q. lra.
Qed.

(** X3: a 16-bit word that is decoded ([/ 32768]) and encoded again does not
    come back unchanged: words below -16384 and the word 0 are kept, every
    other word moves one step toward zero. *)
Theorem reencode_word (w : Z) :
  -32768 <= w <= 32767 ->
  scaleSample (int16ToFloat (num_of_Z w)) = reencodedWord w.
Proof.
  intros Hw.
  change (int16ToFloat (num_of_Z w)) with (Fin (inject_Z w / 32768)).
  rewrite scaleSample_value.
  destruct (reencode_setup w Hw) as [Hc Hb].
  set (c := Qclamp (inject_Z w / 32768)) in *.
  assert (HZ : forall a b : Z, a <= b -> (inject_Z a <= inject_Z b)%Q)
    by (intros a b H; now rewrite <- Zle_Qle).
  unfold reencodedWord, thresholdScale.
  destruct (Z.ltb_spec w (-16384)) as [H1|H1].
  - assert (Hq : (inject_Z w <= -16385)%Q).
    { change (-16385)%Q with (inject_Z (-16385)). apply HZ. lia. }
    destruct (Qltb c (-1 # 2)) eqn:E;
      [|apply Qltb_false in E; lra].
    apply truncQ_unique_nonpos; lra.
  - assert (Hq : (-16384 <= inject_Z w)%Q).
    { change (-16384)%Q with (inject_Z (-16384)). apply HZ. lia. }
    destruct (Qltb c (-1 # 2)) eqn:E;
      [apply Qltb_spec in E; lra|].
    destruct (Z.ltb_spec w 0) as [H2|H2].
    + assert (Hq2 : (inject_Z w <= -1)%Q).
      { change (-1)%Q with (inject_Z (-1)). apply HZ. lia. }
      apply truncQ_unique_nonpos;
        rewrite ?inject_Z_plus; change (inject_Z 1) with 1%Q; lra.
    + destruct (Z.eqb_spec w 0) as [->|H3].
      * change (inject_Z 0) with 0%Q in *.
        apply truncQ_unique_nonneg; change (inject_Z 0) with 0%Q; lra.
      * assert (Hq3 : (1 <= inject_Z w)%Q).
        { change 1%Q with (inject_Z 1). apply HZ. lia. }
        assert (Hm : (inject_Z (w - 1) == inject_Z w - 1)%Q).
        { unfold Z.sub. rewrite inject_Z_plus, inject_Z_opp. reflexivity. }
        apply truncQ_unique_nonneg; lra.
Qed.

Lemma reencode_word_witness :
  scaleSample (int16ToFloat (num_of_Z 12345)) = reencodedWord 12345.
Proof.
  apply (reencode_word 12345). lia.
Defined.

(** ** The data chunk *)

Lemma frameWords_length chans p :
  List.length (frameWords chans p) = List.length chans.
Proof. unfold frameWords. apply length_map. Qed.

Lemma int16_words_frameBytes chans p rest :
  int16_words (frameBytes chans p ++ rest)
  = frameWords chans p ++ int16_words rest.
Proof.
  unfold frameBytes, frameWords.
  induction chans as [|c cs IH]; [reflexivity|].
  cbn [flat_map map]. rewrite <- app_assoc.
  match goal with
  | |- int16_words (le_bytes 2 ?v ++ ?r) = _ =>
      change (int16_words (le_bytes 2 v ++ r))
        with (int16_words (le_bytes 2 v) ++ int16_words r)
  end.
  rewrite int16_words_le_bytes by apply scaleSample_range.
  rewrite IH. reflexivity.
Qed.

Lemma int16_words_frames chans ps rest :
  int16_words (flat_map (frameBytes chans) ps ++ rest)
  = flat_map (frameWords chans) ps ++ int16_words rest.
Proof.
  induction ps as [|p ps IH]; [reflexivity|].
  cbn [flat_map]. rewrite <- !app_assoc, int16_words_frameBytes, IH.
  reflexivity.
Qed.

Lemma int16_words_zeros (k : nat) :
  int16_words (repeat 0 (2 * k)) = repeat 0 k.
Proof.
  induction k as [|k IH]; [reflexivity|].
  replace (2 * S k)%nat with (S (S (2 * k))) by lia.
  cbn [repeat int16_words]. now rewrite IH.
Qed.

(** The words of the data chunk: the frames from index 44 on, then zeros. *)
Lemma bufferToWave_words (abuffer : AudioBuffer number) (len : nat) :
  exists out,
    bufferToWave abuffer len = Returns out /\
    List.length (skipn 44 out) = (len * numberOfChannels abuffer * 2)%nat /\
    int16_words (skipn 44 out)
    = flat_map (frameWords (channels abuffer)) (seq 44 (len - 44))
      ++ repeat 0 (numberOfChannels abuffer * Nat.min 44 len).
Proof.
  pose proof (bufferToWave_bytes abuffer len) as Hbytes. cbv zeta in Hbytes.
  eexists. split; [exact Hbytes|].
  set (header := canonicalHeader _ _ _).
  assert (Hskip : forall body, skipn 44 (header ++ body) = body)
    by reflexivity.
  rewrite Hskip. split.
  - rewrite length_app, repeat_length.
    rewrite (flat_map_constant_length
               (c := (2 * numberOfChannels abuffer)%nat))
      by (intros; apply frameBytes_length).
    rewrite length_seq.
    destruct (Nat.le_gt_cases len 44).
    + rewrite Nat.min_r by lia. replace (len - 44)%nat with O by lia. nia.
    + rewrite Nat.min_l by lia.
      remember (len - 44)%nat as rest eqn:Hrest.
      replace len with (rest + 44)%nat by lia. nia.
  - rewrite int16_words_frames. f_equal.
    replace (2 * numberOfChannels abuffer * Nat.min 44 len)%nat
      with (2 * (numberOfChannels abuffer * Nat.min 44 len))%nat by lia.
    apply int16_words_zeros.
Qed.

(** X4: the frames written are not frames 0 .. len-1: the words of the data
    chunk are those of frames 44 .. len-1, one word per channel and frame,
    followed by zeros for the remaining min(44, len) frames; frames 0 .. 43
    of the buffer never reach the file. *)
Theorem bufferToWave_data_words (abuffer : AudioBuffer number) (len : nat) :
  exists out,
    bufferToWave abuffer len = Returns out /\
    int16_words (skipn 44 out)
    = flat_map (frameWords (channels abuffer)) (seq 44 (len - 44))
      ++ repeat 0 (numberOfChannels abuffer * Nat.min 44 len).
Proof.
  destruct (bufferToWave_words abuffer len) as [out (Hout & _ & Hwords)].
  exists out. auto.
Qed.

(** X5: a buffer exported with at most 44 frames gives a file whose data
    chunk is all zero bytes, whatever the samples are. *)
Theorem bufferToWave_short_is_silent
    (abuffer : AudioBuffer number) (len : nat) :
  (len <= 44)%nat ->
  exists out,
    bufferToWave abuffer len = Returns out /\
    skipn 44 out = repeat 0 (len * numberOfChannels abuffer * 2).
Proof.
  intros Hlen.
  pose proof (bufferToWave_bytes abuffer len) as Hbytes. cbv zeta in Hbytes.
  eexists. split; [exact Hbytes|].
  set (header := canonicalHeader _ _ _).
  assert (Hskip : forall body, skipn 44 (header ++ body) = body)
    by reflexivity.
  rewrite Hskip. replace (len - 44)%nat with O by lia.
  rewrite Nat.min_r by lia. cbn [seq flat_map app].
  f_equal. lia.
Qed.

Lemma bufferToWave_short_is_silent_witness :
  exists out,
    bufferToWave (constantBuffer (1 # 2)) 30 = Returns out /\
    skipn 44 out
    = repeat 0 (30 * numberOfChannels (constantBuffer (1 # 2)) * 2).
Proof.
  apply (bufferToWave_short_is_silent (constantBuffer (1 # 2)) 30). lia.
Defined.

(** ** Decoded samples *)

Lemma toSigned16_range (z : Z) : -32768 <= toSigned 16 z <= 32767.
Proof.
  unfold toSigned. change (2 ^ (16 - 1)) with 32768.
  change (2 ^ 16) with 65536.
  pose proof (Z.mod_pos_bound (z + 32768) 65536 ltac:(lia)). lia.
Qed.

Lemma int16_words_range (bytes : list Z) :
  Forall (fun v => -32768 <= v <= 32767) (int16_words bytes).
Proof.
  remember (List.length bytes) as k eqn:Hk.
  revert bytes Hk. induction k as [k IH] using lt_wf_ind. intros bytes Hk.
  destruct bytes as [|lo [|hi rest]]; subst k; cbn [int16_words];
    [constructor|constructor|].
  constructor; [apply toSigned16_range|].
  apply (IH (List.length rest)); [cbn; lia|reflexivity].
Qed.

Lemma decodeAudioData_outcome_returns bytes ctx rate nc :
  (exists b, decodeAudioData bytes ctx rate nc = Returns b) ->
  decodable bytes ctx rate nc.
Proof.
  intros [b Hb].
  destruct (Nat.even (List.length bytes)) eqn:Heven.
  - destruct (Z_le_dec 1 nc) as [H1|H1];
      [destruct (Z_le_dec nc (maxChannels ctx)) as [H2|H2];
       [destruct (Z_le_dec nc (Z.of_nat (List.length bytes / 2))) as [H3|H3];
        [destruct (Z_le_dec (minSampleRate ctx) rate) as [H4|H4];
         [destruct (Z_le_dec rate (maxSampleRate ctx)) as [H5|H5]|]|]|]|].
    1: unfold decodable; auto.
    all: assert (Hno : ~ decodable bytes ctx rate nc)
           by (unfold decodable; intros (_ & ? & ? & ?); lia).
    all: rewrite (decodeAudioData_unsupported _ _ _ _ Heven Hno) in Hb;
         discriminate.
  - rewrite (decodeAudioData_odd _ _ _ _ Heven) in Hb. discriminate.
Qed.

(** X6: interleaving.  An accepted input decodes to a buffer in which frame
    [j] of channel [c] is the 16-bit word at index [j * channelCount + c]
    of the input, divided by 32768. *)
Theorem decodeAudioData_interleaved bytes ctx rate nc :
  decodable bytes ctx rate nc ->
  exists b,
    decodeAudioData bytes ctx rate nc = Returns b /\
    forall c j,
      (c < Z.to_nat nc)%nat ->
      (j < Z.to_nat (Z.of_nat (List.length bytes / 2) / nc))%nat ->
      exists channelData v,
        nth_error (channels b) c = Some channelData /\
        nth_error (int16_words bytes) (j * Z.to_nat nc + c) = Some v /\
        nth_error channelData j = Some (int16ToFloat (num_of_Z v)).
Proof.
  intros Hok.
  destruct (decodeAudioData_returns bytes ctx rate nc Hok) as [b [Hb _]].
  exists b. split; [exact Hb|].
  intros c j Hc Hj.
  exact (decodeAudioData_samples bytes ctx rate nc b Hok Hb c j Hc Hj).
Qed.

Lemma decodeAudioData_interleaved_witness :
  exists b,
    decodeAudioData fiveWords browserContext 24000 2 = Returns b /\
    forall c j,
      (c < Z.to_nat 2)%nat ->
      (j < Z.to_nat (Z.of_nat (List.length fiveWords / 2) / 2))%nat ->
      exists channelData v,
        nth_error (channels b) c = Some channelData /\
        nth_error (int16_words fiveWords) (j * Z.to_nat 2 + c) = Some v /\
        nth_error channelData j = Some (int16ToFloat (num_of_Z v)).
Proof.
  apply (decodeAudioData_interleaved fiveWords browserContext 24000 2).
  unfold decodable. cbn. repeat split; lia.
Defined.

(** X7: every sample of a decoded buffer is a finite number in [-1, 1):
    -1 is reached (word -32768), +1 is not (word 32767 gives 32767/32768). *)
Theorem decodeAudioData_sample_range bytes ctx rate nc b :
  decodeAudioData bytes ctx rate nc = Returns b ->
  forall channelData x,
    In channelData (channels b) -> In x channelData ->
    exists q, x = Fin q /\ (-1 <= q)%Q /\ (q <= 32767 # 32768)%Q.
Proof.
  intros Hb channelData x Hchan Hx.
  assert (Hok : decodable bytes ctx rate nc).
  { apply decodeAudioData_outcome_returns. eauto. }
  destruct (decodeAudioData_returns bytes ctx rate nc Hok)
    as [b' [Hb' [[Hn Hall] _]]].
  assert (b' = b) by congruence. subst b'.
  destruct (In_nth_error _ _ Hchan) as [c Hc].
  destruct (In_nth_error _ _ Hx) as [j Hj].
  assert (Hcn : (c < Z.to_nat nc)%nat).
  { rewrite <- Hn. apply nth_error_Some. congruence. }
  assert (Hjn : (j < Z.to_nat (Z.of_nat (List.length bytes / 2) / nc))%nat).
  { rewrite Nat2Z.inj_div. change (Z.of_nat 2) with 2.
    rewrite <- (proj1 (Forall_forall _ _) Hall channelData Hchan).
    apply nth_error_Some. congruence. }
  destruct (decodeAudioData_samples bytes ctx rate nc b Hok Hb c j Hcn Hjn)
    as (channelData' & v & Hc' & Hv & Hval).
  assert (channelData' = channelData) by congruence. subst channelData'.
  assert (Hrange : -32768 <= v <= 32767).
  { apply (proj1 (Forall_forall _ _) (int16_words_range bytes)).
    eapply nth_error_In; eauto. }
  exists (inject_Z v / 32768)%Q. split; [congruence|].
  change (inject_Z v / 32768)%Q with (inject_Z v * (1 # 32768))%Q.
  assert (Hq : (-32768 <= inject_Z v <= 32767)%Q).
  { split; [change (-32768)%Q with (inject_Z (-32768))
           |change 32767%Q with (inject_Z 32767)];
      rewrite <- Zle_Qle; lia. }
  split; lra.
Qed.

Lemma decodeAudioData_sample_range_witness :
  exists q,
    Fin (32767 # 32768) = Fin q /\ (-1 <= q)%Q /\ (q <= 32767 # 32768)%Q.
Proof.
  apply (decodeAudioData_sample_range fiveWords browserContext 24000 2
           (mkAudioBuffer 24000
              [[Fin (-32768 # 32768); Fin (1 # 32768)];
               [Fin (32767 # 32768); Fin (-1 # 32768)]]))
    with (channelData := [Fin (32767 # 32768); Fin (-1 # 32768)]).
  - vm_compute. reflexivity.
  - right; left; reflexivity.
  - left; reflexivity.
Defined.

(** ** Exporting and decoding again *)

Lemma nth_error_flat_map_block {A B} (f : A -> list B) (n : nat)
    (rest : list B) (c : nat) :
  (forall x, List.length (f x) = n) ->
  (c < n)%nat ->
  forall l j,
    nth_error (flat_map f l ++ rest) (j * n + c)
    = match nth_error l j with
      | Some x => nth_error (f x) c
      | None => nth_error rest ((j - List.length l) * n + c)
      end.
Proof.
  intros Hlen Hc. induction l as [|a l IH]; intros j.
  - cbn. destruct j; cbn; [reflexivity|]. reflexivity.
  - cbn [flat_map]. rewrite <- app_assoc. destruct j as [|j].
    + cbn [Nat.mul Nat.add nth_error].
      apply nth_error_app1. now rewrite Hlen.
    + rewrite nth_error_app2 by (rewrite Hlen; cbn; lia).
      replace (S j * n + c - List.length (f a))%nat with (j * n + c)%nat
        by (rewrite Hlen; cbn; lia).
      rewrite IH. reflexivity.
Qed.

(** The word the exported file holds for frame [j] of channel [c]. *)
Lemma bufferToWave_word_at (abuffer : AudioBuffer number) (len : nat)
    (c j : nat) (chan : list number) :
  nth_error (channels abuffer) c = Some chan ->
  (j < len)%nat ->
  nth_error
    (flat_map (frameWords (channels abuffer)) (seq 44 (len - 44))
     ++ repeat 0 (numberOfChannels abuffer * Nat.min 44 len))
    (j * numberOfChannels abuffer + c)
  = Some (if (j + 44 <? len)%nat
          then scaleSample (sample_get chan (j + 44)) else 0).
Proof.
  intros Hchan Hj.
  assert (Hc : (c < numberOfChannels abuffer)%nat).
  { unfold numberOfChannels. apply nth_error_Some. congruence. }
  rewrite (nth_error_flat_map_block _ (numberOfChannels abuffer))
    by (intros; apply frameWords_length || exact Hc).
  rewrite nth_error_seq.
  destruct (Nat.ltb_spec j (len - 44)) as [Hin|Hout].
  - destruct (Nat.ltb_spec (j + 44) len); [|lia].
    unfold frameWords.
    rewrite (map_nth_error _ _ _ Hchan).
    replace (44 + j)%nat with (j + 44)%nat by lia. reflexivity.
  - destruct (Nat.ltb_spec (j + 44) len); [lia|].
    apply nth_error_repeat. rewrite length_seq.
    destruct (Nat.le_gt_cases len 44).
    + rewrite Nat.min_r by lia. replace (len - 44)%nat with O by lia. nia.
    + rewrite Nat.min_l by lia. nia.
Qed.

(** X8: the round trip as the code performs it.  Decoding the data chunk of
    an exported file gives a buffer of the same shape, but shifted: frame
    [j] of the result is the quantised frame [j + 44] of the original, and
    the last 44 frames are silence. *)
Theorem export_then_decode (abuffer : AudioBuffer number) (len : nat)
    (ctx : AudioContext) :
  (1 <= len)%nat ->
  1 <= Z.of_nat (numberOfChannels abuffer) <= maxChannels ctx ->
  minSampleRate ctx <= sampleRate abuffer <= maxSampleRate ctx ->
  exists out b,
    bufferToWave abuffer len = Returns out /\
    decodeAudioData (skipn 44 out) ctx (sampleRate abuffer)
      (Z.of_nat (numberOfChannels abuffer)) = Returns b /\
    numberOfChannels b = numberOfChannels abuffer /\
    bufferLength b = len /\
    forall c j chan,
      nth_error (channels abuffer) c = Some chan ->
      (j < len)%nat ->
      exists decoded,
        nth_error (channels b) c = Some decoded /\
        nth_error decoded j
        = Some (int16ToFloat
                  (num_of_Z (if (j + 44 <? len)%nat
                             then scaleSample (sample_get chan (j + 44))
                             else 0))).
Proof.
  intros Hlen Hnc Hrate.
  destruct (bufferToWave_words abuffer len) as [out (Hout & Hsize & Hwords)].
  set (nc := numberOfChannels abuffer) in *.
  assert (Hhalf : (List.length (skipn 44 out) / 2 = len * nc)%nat).
  { rewrite Hsize. apply Nat.div_mul. lia. }
  assert (Hok : decodable (skipn 44 out) ctx (sampleRate abuffer)
                  (Z.of_nat nc)).
  { unfold decodable. rewrite Hhalf, Hsize.
    split; [|split; [exact Hnc|split; [nia|exact Hrate]]].
    rewrite Nat.even_mul. cbn. apply orb_true_r. }
  assert (Hframes : Z.to_nat (Z.of_nat (len * nc) / Z.of_nat nc) = len).
  { rewrite Nat2Z.inj_mul, Z.div_mul by lia. lia. }
  destruct (decodeAudioData_returns _ _ _ _ Hok) as [b (Hb & [Hn Hall] & _)].
  rewrite Hsize in Hall.
  replace (Z.of_nat (len * nc * 2) / 2) with (Z.of_nat (len * nc)) in Hall
    by (rewrite (Nat2Z.inj_mul _ 2), Z.div_mul; lia).
  rewrite Hframes in Hall. rewrite Nat2Z.id in Hn.
  exists out, b. split; [exact Hout|]. split; [exact Hb|].
  split; [exact Hn|]. split.
  - unfold bufferLength. destruct (channels b) as [|d ds] eqn:Hcs.
    + cbn in Hn. lia.
    + now inversion Hall.
  - intros c j chan Hchan Hj.
    assert (Hc : (c < nc)%nat).
    { unfold nc, numberOfChannels. apply nth_error_Some. congruence. }
    destruct (decodeAudioData_samples _ _ _ _ b Hok Hb c j)
      as (decoded & v & Hdec & Hv & Hval).
    + rewrite Nat2Z.id. exact Hc.
    + rewrite Hhalf, Hframes. exact Hj.
    + exists decoded. split; [exact Hdec|].
      rewrite Hwords, Nat2Z.id in Hv.
      pose proof (bufferToWave_word_at abuffer len c j chan Hchan Hj) as Hw.
      fold nc in Hw. rewrite Hw in Hv.
      injection Hv as <-. exact Hval.
Qed.

Lemma export_then_decode_witness :
  exists out b,
    bufferToWave (constantBuffer (1 # 2)) 45 = Returns out /\
    decodeAudioData (skipn 44 out) browserContext
      (sampleRate (constantBuffer (1 # 2)))
      (Z.of_nat (numberOfChannels (constantBuffer (1 # 2)))) = Returns b /\
    numberOfChannels b = numberOfChannels (constantBuffer (1 # 2)) /\
    bufferLength b = 45%nat /\
    forall c j chan,
      nth_error (channels (constantBuffer (1 # 2))) c = Some chan ->
      (j < 45)%nat ->
      exists decoded,
        nth_error (channels b) c = Some decoded /\
        nth_error decoded j
        = Some (int16ToFloat
                  (num_of_Z (if (j + 44 <? 45)%nat
                             then scaleSample (sample_get chan (j + 44))
                             else 0))).
Proof.
  apply (export_then_decode (constantBuffer (1 # 2)) 45 browserContext).
  - lia.
  - cbn. lia.
  - cbn. lia.
Defined.

(* ================================================================== *)
(** * Further properties of the analyser *)

(** ** Zero crossings *)

Lemma zcrCount_le (rest : list float) :
  forall prev, (zcrCount prev rest <= List.length rest)%nat.
Proof.
  induction rest as [|cur rest IH]; intros prev; cbn [zcrCount List.length].
  - lia.
  - specialize (IH cur). destruct (crossing prev cur); lia.
Qed.

(** X9: [calculateZCR] divides the number of sign changes by the buffer
    length, and a buffer has fewer sign changes than samples: the count is
    at most length - 1, so the ratio of the two counts never reaches 1. *)
Theorem calculateZCR_count (buffer : list float) :
  calculateZCR buffer
  = PrimFloat.div (float_of_nat (crossings buffer))
                  (float_of_nat (List.length buffer)) /\
  (crossings buffer <= List.length buffer - 1)%nat.
Proof.
  split; [reflexivity|].
  destruct buffer as [|first rest]; [cbn; lia|].
  cbn [crossings List.length]. pose proof (zcrCount_le rest first). lia.
Qed.

Lemma zcrCount_one_sided (rest : list float) :
  forall prev,
    (Forall (fun x => PrimFloat.ltb x 0 = false) (prev :: rest) \/
     Forall (fun x => PrimFloat.leb 0 x = false) (prev :: rest)) ->
    zcrCount prev rest = O.
Proof.
  induction rest as [|cur rest IH]; intros prev H; [reflexivity|].
  cbn [zcrCount]. rewrite IH.
  - unfold crossing. destruct H as [H|H];
      inversion H as [|? ? Hp Hr]; inversion Hr as [|? ? Hc _]; subst;
      cbv beta in Hp, Hc; rewrite Hp, Hc;
      now rewrite ?andb_false_r, ?andb_false_l.
  - destruct H as [H|H]; [left|right]; now inversion H.
Qed.

(** X10: a buffer that never goes below zero has no zero crossing, and
    neither has one that never reaches zero from below (zero counts as
    non-negative; NaN samples count on neither side). *)
Theorem crossings_one_sided (buffer : list float) :
  Forall (fun x => PrimFloat.ltb x 0 = false) buffer \/
  Forall (fun x => PrimFloat.leb 0 x = false) buffer ->
  crossings buffer = O.
Proof.
  destruct buffer as [|first rest]; [reflexivity|].
  apply zcrCount_one_sided.
Qed.

Lemma crossings_one_sided_witness : crossings [0.5; 0; 0.25]%float = O.
Proof.
  apply (crossings_one_sided [0.5; 0; 0.25]%float).
  left. repeat constructor.
Defined.

Lemma crossing_sym (a b : float) : crossing a b = crossing b a.
Proof.
  unfold crossing.
  destruct (PrimFloat.leb 0 a), (PrimFloat.ltb a 0),
           (PrimFloat.leb 0 b), (PrimFloat.ltb b 0); reflexivity.
Qed.

Lemma last_cons {A} (l : list A) :
  forall x d, last (x :: l) d = last l x.
Proof.
  induction l as [|a l IH]; intros x d; [reflexivity|].
  change (last (x :: a :: l) d) with (last (a :: l) d).
  now rewrite !IH.
Qed.

Lemma zcrCount_snoc (rest : list float) :
  forall prev x,
    zcrCount prev (rest ++ [x])
    = (zcrCount prev rest
       + if crossing (last rest prev) x then 1 else 0)%nat.
Proof.
  induction rest as [|cur rest IH]; intros prev x.
  - cbn. lia.
  - cbn [app zcrCount]. rewrite IH, last_cons. lia.
Qed.

(** X11: the number of zero crossings does not depend on the direction in
    which the buffer is read. *)
Theorem crossings_rev (buffer : list float) :
  crossings (rev buffer) = crossings buffer.
Proof.
  induction buffer as [|a rest IH]; [reflexivity|].
  destruct rest as [|b rest]; [reflexivity|].
  change (rev (a :: b :: rest)) with (rev (b :: rest) ++ [a]).
  destruct (rev (b :: rest)) as [|p l] eqn:Hrev.
  { cbn [rev] in Hrev. destruct (rev rest); discriminate. }
  change (crossings ((p :: l) ++ [a])) with (zcrCount p (l ++ [a])).
  rewrite zcrCount_snoc.
  change (zcrCount p l) with (crossings (p :: l)). rewrite IH.
  rewrite <- (last_cons l p a), <- Hrev.
  cbn [rev]. rewrite last_last.
  cbn [crossings zcrCount]. rewrite (crossing_sym b a). lia.
Qed.

(** ** The feature series *)

Lemma sampleStep_sum (l : list float) :
  forall p sum,
    snd (fold_left sampleStep l (p, sum))
    = fold_left (fun sum x => PrimFloat.add sum (PrimFloat.mul x x)) l sum.
Proof.
  induction l as [|x l IH]; intros p sum; [reflexivity|].
  cbn [fold_left]. unfold sampleStep at 2. cbn [fst snd].
  rewrite IH. reflexivity.
Qed.

Lemma windowStep_series data ws st i :
  windowRMSs (windowStep data ws st i)
  = windowRMSs st ++ [rmsOf ws (windowOf data ws i)] /\
  windowZCRs (windowStep data ws st i)
  = windowZCRs st ++ [calculateZCR (windowOf data ws i)] /\
  totalRMS (windowStep data ws st i)
  = PrimFloat.add (totalRMS st) (rmsOf ws (windowOf data ws i)).
Proof.
  unfold windowStep, rmsOf. cbn [windowRMSs windowZCRs totalRMS].
  rewrite sampleStep_sum. auto.
Qed.

Lemma windowsOf_snoc data ws n :
  windowsOf data ws (S n) = windowsOf data ws n ++ [windowOf data ws n].
Proof. unfold windowsOf. rewrite seq_S, map_app. reflexivity. Qed.

Lemma windowLoop_series data ws tw :
  forall fuel i st f,
    windowLoop fuel data ws tw i st = Returns f ->
    windowRMSs st = map (rmsOf ws) (windowsOf data ws i) ->
    windowZCRs st = map calculateZCR (windowsOf data ws i) ->
    totalRMS st = fold_left PrimFloat.add (windowRMSs st) 0%float ->
    exists n,
      windowRMSs f = map (rmsOf ws) (windowsOf data ws n) /\
      windowZCRs f = map calculateZCR (windowsOf data ws n) /\
      totalRMS f = fold_left PrimFloat.add (windowRMSs f) 0%float.
Proof.
  induction fuel as [|fuel IH]; intros i st f; cbn [windowLoop];
    destruct (PrimFloat.ltb (float_of_nat i) tw);
    try discriminate;
    try (intros [= <-] Hr Hz Ht; exists i; repeat split; assumption).
  intros Hrun Hr Hz Ht.
  destruct (windowStep_series data ws st i) as (Sr & Sz & St).
  apply (IH _ _ _ Hrun).
  - rewrite Sr, Hr, windowsOf_snoc, map_app. reflexivity.
  - rewrite Sz, Hz, windowsOf_snoc, map_app. reflexivity.
  - rewrite St, Sr, fold_left_app, Ht. reflexivity.
Qed.

(** X12: the feature series holds, window by window and in order, the RMS
    and the zero-crossing rate of that window alone (nothing carries over
    from one window to the next), both series have one entry per window,
    and [totalRMS] is the left-to-right sum of the RMS series. *)
Theorem extract_feature_series
    (data : list float) (rate : float) (f : features) (tw : float) :
  extract data rate = Returns (f, tw) ->
  let ws := Math_floor (PrimFloat.mul rate windowSizeSec) in
  let windows := windowsOf data ws (List.length (windowRMSs f)) in
  windowRMSs f = map (rmsOf ws) windows /\
  windowZCRs f = map calculateZCR windows /\
  List.length (windowZCRs f) = List.length (windowRMSs f) /\
  totalRMS f = fold_left PrimFloat.add (windowRMSs f) 0%float.
Proof.
  intros Hrun ws windows. unfold extract in Hrun.
  destruct (windowLoop _ data _ _ O _) as [f'| |] eqn:Hloop;
    cbn [bind] in Hrun; try discriminate.
  injection Hrun as Hf _. subst f'.
  destruct (windowLoop_series _ _ _ _ _ _ _ Hloop)
    as (n & Hr & Hz & Ht); try reflexivity.
  assert (Hn : List.length (windowRMSs f) = n).
  { rewrite Hr. unfold windowsOf. now rewrite !length_map, length_seq. }
  unfold windows. rewrite Hn. fold ws in Hr, Hz.
  split; [exact Hr|]. split; [exact Hz|]. split; [|exact Ht].
  rewrite Hz. unfold windowsOf. now rewrite !length_map, length_seq.
Qed.

Lemma extract_feature_series_witness :
  windowRMSs clickFeatures
  = map (rmsOf (Math_floor (PrimFloat.mul 8000%float windowSizeSec)))
      (windowsOf clickSignal
         (Math_floor (PrimFloat.mul 8000%float windowSizeSec))
         (List.length (windowRMSs clickFeatures))) /\
  windowZCRs clickFeatures
  = map calculateZCR
      (windowsOf clickSignal
         (Math_floor (PrimFloat.mul 8000%float windowSizeSec))
         (List.length (windowRMSs clickFeatures))) /\
  List.length (windowZCRs clickFeatures)
  = List.length (windowRMSs clickFeatures) /\
  totalRMS clickFeatures
  = fold_left PrimFloat.add (windowRMSs clickFeatures) 0%float.
Proof.
  apply (extract_feature_series clickSignal 8000%float clickFeatures 60%float).
  vm_compute. reflexivity.
Defined.

(** ** The rhythm loop *)

Lemma rhythmStep_invariant rmss zcrs avg thr st i k :
  rhythmInvariant k st ->
  rhythmInvariant (S k) (rhythmStep rmss zcrs avg thr st i).
Proof.
  unfold rhythmInvariant, rhythmStep. cbv zeta.
  intros (Hp & Ha & Hz & Hl & Hr).
  destruct (PrimFloat.ltb thr (nth i rmss nan)) eqn:Eactive.
  - rewrite (ltb_antisym _ _ Eactive).
    cbn [currentPauseRun quietWindows longestPauseWindows activeWindowsCount
         activeZCRs peakCount].
    destruct (0 <? currentPauseRun st)%nat;
      cbn [currentPauseRun quietWindows longestPauseWindows
           activeWindowsCount activeZCRs peakCount];
      rewrite length_app; cbn [List.length];
      match goal with
      | |- context [if ?c then _ else _] => destruct c
      end; repeat split; lia.
  - destruct (PrimFloat.ltb (nth i rmss nan) thr);
      [|destruct (0 <? currentPauseRun st)%nat];
      cbn [currentPauseRun quietWindows longestPauseWindows
           activeWindowsCount activeZCRs peakCount];
      repeat split; lia.
Qed.

Lemma rhythmFold_invariant rmss zcrs avg thr :
  forall idxs st k,
    rhythmInvariant k st ->
    rhythmInvariant (k + List.length idxs)
      (fold_left (rhythmStep rmss zcrs avg thr) idxs st).
Proof.
  induction idxs as [|i idxs IH]; intros st k Hinv; cbn [fold_left List.length].
  - now rewrite Nat.add_0_r.
  - replace (k + S (List.length idxs))%nat
      with (S k + List.length idxs)%nat by lia.
    apply IH, rhythmStep_invariant, Hinv.
Qed.

(** X13: what the rhythm loop counts.  Peaks are only counted in active
    windows; no window is counted both as active and as quiet, so the two
    counts together never exceed the number of interior windows; one ZCR is
    kept per active window; the longest pause is no longer than the number
    of quiet windows. *)
Theorem rhythmLoop_counts (rmss zcrs : list float) (avg thr : float) :
  let r := rhythmLoop rmss zcrs avg thr in
  (peakCount r <= activeWindowsCount r)%nat /\
  (activeWindowsCount r + quietWindows r <= List.length rmss - 2)%nat /\
  List.length (activeZCRs r) = activeWindowsCount r /\
  (longestPauseWindows r <= quietWindows r)%nat.
Proof.
  cbv zeta. unfold rhythmLoop. cbv zeta.
  assert (Hstart : rhythmInvariant O (mkRhythm O O O O [] O)).
  { unfold rhythmInvariant. cbn. repeat split; lia. }
  pose proof (rhythmFold_invariant rmss zcrs avg thr
                (seq 1 (List.length rmss - 2)) _ O Hstart) as Hinv.
  rewrite length_seq in Hinv. cbn [Nat.add] in Hinv.
  destruct Hinv as (Hp & Ha & Hz & Hl & Hr).
  cbn [peakCount activeWindowsCount quietWindows activeZCRs
       longestPauseWindows].
  repeat split; try assumption. lia.
Qed.

Lemma rhythmLoop_lengths (rmss zcrs : list float) (avg thr : float) :
  List.length (activeZCRs (rhythmLoop rmss zcrs avg thr))
  = activeWindowsCount (rhythmLoop rmss zcrs avg thr).
Proof.
  unfold rhythmLoop. cbv zeta.
  assert (Hstart : rhythmInvariant O (mkRhythm O O O O [] O)).
  { unfold rhythmInvariant. cbn. repeat split; lia. }
  pose proof (rhythmFold_invariant rmss zcrs avg thr
                (seq 1 (List.length rmss - 2)) _ O Hstart) as Hinv.
  destruct Hinv as (_ & _ & Hz & _).
  exact Hz.
Qed.

(** X14: with no active window nothing is divided by zero: the speech rate
    and the ZCR deviation are then exactly 0. *)
Theorem no_active_window_stats (f : features) (tw : float) :
  activeWindowsCount
    (rhythmLoop (windowRMSs f) (windowZCRs f)
       (avgRMS (statsOf f tw)) (dynamicThreshold (statsOf f tw))) = O ->
  peaksPerSecond (statsOf f tw) = 0%float /\
  zcrStdDev (statsOf f tw) = 0%float.
Proof.
  unfold statsOf. cbv zeta.
  cbn [avgRMS dynamicThreshold peaksPerSecond zcrStdDev].
  set (r := rhythmLoop _ _ _ _). intros Hnone.
  pose proof (rhythmLoop_lengths (windowRMSs f) (windowZCRs f)
                (PrimFloat.div (totalRMS f) tw)
                (fmax (PrimFloat.mul (PrimFloat.div (totalRMS f) tw) 0.4) 0.02))
    as Hz.
  fold r in Hz. rewrite Hnone in Hz. rewrite Hnone, Hz.
  split; reflexivity.
Qed.

Lemma no_active_window_stats_witness :
  peaksPerSecond (statsOf silentFeatures 60) = 0%float /\
  zcrStdDev (statsOf silentFeatures 60) = 0%float.
Proof.
  apply (no_active_window_stats silentFeatures 60).
  vm_compute. reflexivity.
Defined.

(** ** Scores and reasons of the results *)

(** A capped score is one of the returned scores, and at most 55. *)
Lemma fmin_cap_values (x : float) (cap : Z) :
  In x (map float_of_Z scoreValues) ->
  In cap [30; 40; 45; 50; 55] ->
  In (fmin x (float_of_Z cap)) (map float_of_Z returnedScores) /\
  PrimFloat.leb (fmin x (float_of_Z cap)) 55 = true.
Proof.
  intros Hx Hcap. cbn [In] in Hcap.
  repeat (destruct Hcap as [<-|Hcap]); try contradiction;
    for_each_score Hx ltac:(split; [among_scores | vm_compute; reflexivity]).
Qed.

Lemma classify_scores (f : features) (totalWindows : float) :
  In (score (classify f totalWindows)) (map float_of_Z returnedScores) /\
  (valid (classify f totalWindows) = false ->
   PrimFloat.leb (score (classify f totalWindows)) 55 = true /\
   exists why,
     reason (classify f totalWindows) = Some why /\
     String.eqb why "" = false).
Proof.
  unfold classify.
  pose proof (scoreOf_values (statsOf f totalWindows)) as Hscore.
  revert Hscore.
  generalize (scoreOf (statsOf f totalWindows)) as sc.
  generalize (statsOf f totalWindows) as s.
  intros s sc Hscore. cbv zeta.
  repeat match goal with
         | |- context [if ?c then _ else _] => destruct c
         end;
    cbn [invalid score reason valid];
    (split;
     [ first [ apply (fmin_cap_values sc 30 Hscore); cbn; tauto
             | apply (fmin_cap_values sc 40 Hscore); cbn; tauto
             | apply (fmin_cap_values sc 45 Hscore); cbn; tauto
             | apply (fmin_cap_values sc 50 Hscore); cbn; tauto
             | apply (fmin_cap_values sc 55 Hscore); cbn; tauto
             | right; exact Hscore
             | among_scores ]
     | first [ intros H; discriminate H
             | intros _; split;
               [ first [ apply (fmin_cap_values sc 30 Hscore); cbn; tauto
                       | apply (fmin_cap_values sc 40 Hscore); cbn; tauto
                       | apply (fmin_cap_values sc 45 Hscore); cbn; tauto
                       | apply (fmin_cap_values sc 50 Hscore); cbn; tauto
                       | apply (fmin_cap_values sc 55 Hscore); cbn; tauto
                       | vm_compute; reflexivity ]
               | eexists; split; reflexivity ] ] ]).
Qed.

(** The three places a result comes from. *)
Lemma analysis_cases (buffer : AudioBuffer float) (r : AudioAnalysisResult) :
  analyzeAudioQuality buffer = Returns r ->
  r = tooShort \/ r = tooLarge \/ exists f tw, r = classify f tw.
Proof.
  unfold analyzeAudioQuality.
  destruct (getChannelData buffer 0) as [data| |]; cbn [bind];
    [|discriminate|discriminate].
  destruct (PrimFloat.ltb (duration buffer) 3);
    [intros [= <-]; now left|].
  destruct (PrimFloat.ltb 300 (duration buffer));
    [intros [= <-]; right; now left|].
  destruct (extract data (float_of_Z (sampleRate buffer))) as [[f tw]| |];
    cbn [bind fst snd]; [|discriminate|discriminate].
  intros [= <-]. right; right. now exists f, tw.
Qed.

Lemma analysis_scores (buffer : AudioBuffer float) (r : AudioAnalysisResult) :
  analyzeAudioQuality buffer = Returns r ->
  In (score r) (map float_of_Z returnedScores) /\
  (valid r = false ->
   PrimFloat.leb (score r) 55 = true /\
   exists why, reason r = Some why /\ String.eqb why "" = false).
Proof.
  intros Hrun.
  destruct (analysis_cases buffer r Hrun) as [->|[->|(f & tw & ->)]].
  - split; [left; reflexivity|].
    intros _. split; [reflexivity|]. eexists. split; reflexivity.
  - split; [left; reflexivity|].
    intros _. split; [reflexivity|]. eexists. split; reflexivity.
  - apply classify_scores.
Qed.

(** X15: the scores the analyser returns.  Every score is 0 or one of 20,
    25, ..., 100 (5, 10 and 15 never occur), and a rejected recording never
    scores above 55. *)
Theorem returned_scores
    (buffer : AudioBuffer float) (r : AudioAnalysisResult) :
  analyzeAudioQuality buffer = Returns r ->
  In (score r) (map float_of_Z returnedScores) /\
  (valid r = false -> PrimFloat.leb (score r) 55 = true).
Proof.
  intros Hrun. destruct (analysis_scores buffer r Hrun) as [Hin Hinvalid].
  split; [exact Hin|]. intros Hv. apply (Hinvalid Hv).
Qed.

Lemma returned_scores_witness :
  In (score tooShort) (map float_of_Z returnedScores) /\
  (valid tooShort = false -> PrimFloat.leb (score tooShort) 55 = true).
Proof.
  apply (returned_scores shortBuffer).
  vm_compute. reflexivity.
Defined.

(** ** validateAndAnalyzeAudio *)

(** X16: what the caller makes of an analysis.  A valid result resolves
    with its score, which is then at least 20; an invalid one rejects with
    exactly the analyser's reason: neither the fallback message nor the
    generic one of the catch block is ever used for it. *)
Theorem validateAnalysis_outcome
    (buffer : AudioBuffer float) (r : AudioAnalysisResult) :
  analyzeAudioQuality buffer = Returns r ->
  (valid r = true /\
   validateAnalysis r = Resolved (score r) /\
   PrimFloat.leb 20 (score r) = true)
  \/
  (valid r = false /\
   exists why, reason r = Some why /\ validateAnalysis r = Rejected why).
Proof.
  intros Hrun. destruct (valid r) eqn:Hv.
  - left. split; [reflexivity|].
    unfold validateAnalysis. rewrite Hv. cbn [negb]. split; [reflexivity|].
    destruct (analysis_cases buffer r Hrun) as [->|[->|(f & tw & ->)]];
      [discriminate Hv|discriminate Hv|].
    rewrite (classify_valid_score f tw Hv). cbn [score].
    apply scoreValues_at_least_20, scoreOf_values.
  - right. split; [reflexivity|].
    destruct (analysis_scores buffer r Hrun) as [_ Hinvalid].
    destruct (Hinvalid Hv) as (_ & why & Hwhy & Hne).
    exists why. split; [exact Hwhy|].
    unfold validateAnalysis, orElse. rewrite Hv, Hwhy. cbn [negb].
    rewrite Hne. cbv zeta. rewrite Hne. reflexivity.
Qed.

Lemma validateAnalysis_outcome_witness :
  (valid tooShort = true /\
   validateAnalysis tooShort = Resolved (score tooShort) /\
   PrimFloat.leb 20 (score tooShort) = true)
  \/
  (valid tooShort = false /\
   exists why,
     reason tooShort = Some why /\ validateAnalysis tooShort = Rejected why).
Proof.
  apply (validateAnalysis_outcome shortBuffer).
  vm_compute. reflexivity.
Defined.

(** ** fileToBase64 *)

Lemma split_cons (sep : ascii) (s : string) :
  exists seg segs, split sep s = seg :: segs.
Proof.
  induction s as [|c rest (seg & segs & IH)]; cbn [split].
  - now exists EmptyString, [].
  - rewrite IH. destruct (Ascii.eqb c sep); eauto.
Qed.

Lemma split_commaFree (s : string) :
  commaFree s -> split "," s = [s].
Proof.
  induction s as [|c rest IH]; cbn [split commaFree]; [reflexivity|].
  intros [Hc Hrest]. rewrite (IH Hrest).
  destruct (Ascii.eqb_spec c ","); [contradiction|reflexivity].
Qed.

Lemma split_prefix (prefix rest : string) :
  commaFree prefix ->
  split "," (prefix ++ String "," rest)%string = prefix :: split "," rest.
Proof.
  induction prefix as [|c prefix IH]; cbn [split commaFree String.append].
  - intros _. destruct (split_cons "," rest) as (seg & segs & ->).
    reflexivity.
  - intros [Hc Hprefix]. rewrite (IH Hprefix).
    destruct (Ascii.eqb_spec c ","); [contradiction|reflexivity].
Qed.

(** X17: from a data URL, the part after the comma.  When neither the
    prefix nor the payload holds a comma (base64 never does), the promise
    resolves with exactly the payload; anything after a second comma is
    dropped. *)
Theorem fileToBase64_payload (prefix payload tail : string) :
  commaFree prefix ->
  commaFree payload ->
  fileToBase64 (prefix ++ String "," payload)%string = Some payload /\
  fileToBase64 (prefix ++ String "," (payload ++ String "," tail))%string
  = Some payload.
Proof.
  intros Hprefix Hpayload. unfold fileToBase64. split.
  - rewrite (split_prefix _ _ Hprefix), (split_commaFree _ Hpayload).
    reflexivity.
  - rewrite (split_prefix _ _ Hprefix), (split_prefix _ _ Hpayload).
    reflexivity.
Qed.

Lemma fileToBase64_payload_witness :
  fileToBase64 "data:audio/wav;base64,UklGRg==" = Some "UklGRg=="%string /\
  fileToBase64 "data:audio/wav;base64,UklGRg==,more" = Some "UklGRg=="%string.
Proof.
  apply (fileToBase64_payload "data:audio/wav;base64" "UklGRg==" "more");
    cbn; repeat split; discriminate.
Defined.

(** X18: a reader result without a comma resolves with [undefined]: the
    promise is never rejected for it. *)
Theorem fileToBase64_without_comma (result : string) :
  commaFree result -> fileToBase64 result = None.
Proof.
  intros Hfree. unfold fileToBase64.
  rewrite (split_commaFree _ Hfree). reflexivity.
Qed.

Lemma fileToBase64_without_comma_witness :
  fileToBase64 "data:" = None.
Proof.
  apply (fileToBase64_without_comma "data:").
  cbn; repeat split; discriminate.
Defined.

(** ** The download name *)

Ltac units :=
  unfold isSafe, isAlnum, isDigit, isUpper, isLower in *;
  rewrite ?Bool.orb_true_iff, ?Bool.orb_false_iff, ?Bool.andb_true_iff,
    ?Bool.andb_false_iff, ?Nat.leb_le, ?Nat.leb_gt, ?Nat.eqb_eq in *;
  lia.

Lemma safe_unit (c : nat) :
  isSafe (toLowerCase (if isAlnum c then c else 95%nat)) = true.
Proof.
  destruct (isAlnum c) eqn:Ealnum; [|reflexivity].
  unfold toLowerCase. destruct (isUpper c) eqn:Eupper; units.
Qed.

Lemma safe_fixed (c : nat) :
  isSafe c = true -> toLowerCase (if isAlnum c then c else 95%nat) = c.
Proof.
  intros Hsafe.
  destruct (isAlnum c) eqn:Ealnum.
  - unfold toLowerCase. destruct (isUpper c) eqn:Eupper; [units|reflexivity].
  - assert (c = 95%nat) as -> by units. reflexivity.
Qed.

Lemma safeText_safe (text : list nat) :
  forallb isSafe (safeText text) = true.
Proof.
  unfold safeText. rewrite map_map. apply forallb_forall.
  intros x Hx. apply in_map_iff in Hx as (c & <- & _). apply safe_unit.
Qed.

Lemma safeText_length (text : list nat) :
  List.length (safeText text) = Nat.min 20 (List.length text).
Proof. unfold safeText. now rewrite !length_map, length_firstn. Qed.

(** X19: the download name.  [safeText] keeps at most the first 20 code
    units, one for one; the result holds only [a-z], [0-9] and [_]; and
    cleaning a cleaned name changes nothing. *)
Theorem safeText_clean (text : list nat) :
  List.length (safeText text) = Nat.min 20 (List.length text) /\
  forallb isSafe (safeText text) = true /\
  safeText (safeText text) = safeText text.
Proof.
  split; [apply safeText_length|]. split; [apply safeText_safe|].
  pose proof (safeText_safe text) as Hsafe.
  pose proof (safeText_length text) as Hlen.
  revert Hsafe Hlen. generalize (safeText text) as l. intros l Hsafe Hlen.
  unfold safeText. rewrite firstn_all2 by lia.
  rewrite map_map. rewrite <- (map_id l) at 2.
  apply map_ext_in. intros c Hc. apply safe_fixed.
  rewrite forallb_forall in Hsafe. apply Hsafe, Hc.
Qed.
